(** * handytail: line normalisation and the match-and-exit loop

    A shallow embedding of the two programs of the repository,
    [src/main.go] (the minimal variant) and [src/unnamed/part_001] (the
    extended variant with [-quiet], [-help] and a file argument), and the
    properties of their line normaliser [processLine] and of their
    decision loop.

    Go strings are byte sequences: they are modelled as [string] (a list
    of 8-bit [ascii]).  Runes are [int32] values, modelled as [Z].  The
    loop [for range] over a string and the conversion [string([]rune)]
    are those of the Go runtime, with its UTF-8 decoder and encoder.
    Packages [regexp], [flag] and [bufio] are not part of the
    repository: [regexp] is a parameter of the programs, with a model
    of the package on literal patterns ([regexp.package]); [flag] and
    the scanner are modelled by what they hand to the programs. *)

From Stdlib Require Import ZArith List String Ascii Bool Lia.
Import ListNotations.
Open Scope string_scope.
Open Scope list_scope.
Open Scope Z_scope.

(** Concatenation of Go strings. *)
Infix "+++" := String.append (right associativity, at level 60).

(** ** The parts of the Go runtime the programs rely on *)

Definition rune := Z.

(** The value of a byte, and Go's conversion [byte(x)] of an integer. *)
Definition byteval (a : ascii) : Z := Z.of_N (N_of_ascii a).
Definition byte (x : Z) : Z := Z.land x 0xFF.
Definition mkbyte (x : Z) : ascii := ascii_of_N (Z.to_N x).

Definition bytes_of_string (s : string) : list Z :=
  map byteval (list_ascii_of_string s).
Definition string_of_bytes (l : list Z) : string :=
  string_of_list_ascii (map mkbyte l).

(** Package [unicode/utf8] and the decoder of the runtime. *)
Module utf8.

Definition RuneError : rune := 0xFFFD.
Definition RuneSelf : Z := 0x80.
Definition MaxRune : rune := 0x10FFFF.

Definition surrogateMin : Z := 0xD800.
Definition surrogateMax : Z := 0xDFFF.

Definition tx : Z := 0x80.   (* 1000 0000 *)
Definition t2 : Z := 0xC0.   (* 1100 0000 *)
Definition t3 : Z := 0xE0.   (* 1110 0000 *)
Definition t4 : Z := 0xF0.   (* 1111 0000 *)
Definition t5 : Z := 0xF8.   (* 1111 1000 *)

Definition maskx : Z := 0x3F. (* 0011 1111 *)
Definition mask2 : Z := 0x1F. (* 0001 1111 *)
Definition mask3 : Z := 0x0F. (* 0000 1111 *)
Definition mask4 : Z := 0x07. (* 0000 0111 *)

Definition rune1Max : Z := 0x7F.   (* 1<<7 - 1 *)
Definition rune2Max : Z := 0x7FF.  (* 1<<11 - 1 *)
Definition rune3Max : Z := 0xFFFF. (* 1<<16 - 1 *)

Definition locb : Z := 0x80. (* 1000 0000 *)
Definition hicb : Z := 0xBF. (* 1011 1111 *)

(** [locb <= b && b <= hicb]: [b] is a continuation byte. *)
Definition cont (b : Z) : bool := (locb <=? b) && (b <=? hicb).

(** [decoderune(s, k)] of the runtime, on the suffix [s[k:]]: the rune
    that starts there and the number of bytes it takes.  Anything that
    is not a well-formed, shortest-form sequence gives [RuneError] and
    a width of one byte. *)
Definition decoderune (s : list Z) : rune * nat :=
  match s with
  | [] => (RuneError, 1%nat)
  | s0 :: s' =>
    if (t2 <=? s0) && (s0 <? t3) then
      (* 0080-07FF two byte sequence *)
      match s' with
      | s1 :: _ =>
        if cont s1 then
          let r := Z.lor (Z.shiftl (Z.land s0 mask2) 6) (Z.land s1 maskx) in
          if rune1Max <? r then (r, 2%nat) else (RuneError, 1%nat)
        else (RuneError, 1%nat)
      | _ => (RuneError, 1%nat)
      end
    else if (t3 <=? s0) && (s0 <? t4) then
      (* 0800-FFFF three byte sequence *)
      match s' with
      | s1 :: s2 :: _ =>
        if cont s1 && cont s2 then
          let r := Z.lor (Z.lor (Z.shiftl (Z.land s0 mask3) 12)
                                (Z.shiftl (Z.land s1 maskx) 6))
                         (Z.land s2 maskx) in
          if (rune2Max <? r)
             && negb ((surrogateMin <=? r) && (r <=? surrogateMax))
          then (r, 3%nat) else (RuneError, 1%nat)
        else (RuneError, 1%nat)
      | _ => (RuneError, 1%nat)
      end
    else if (t4 <=? s0) && (s0 <? t5) then
      (* 10000-1FFFFF four byte sequence *)
      match s' with
      | s1 :: s2 :: s3 :: _ =>
        if cont s1 && cont s2 && cont s3 then
          let r := Z.lor (Z.lor (Z.lor (Z.shiftl (Z.land s0 mask4) 18)
                                       (Z.shiftl (Z.land s1 maskx) 12))
                                (Z.shiftl (Z.land s2 maskx) 6))
                         (Z.land s3 maskx) in
          if (rune3Max <? r) && (r <=? MaxRune)
          then (r, 4%nat) else (RuneError, 1%nat)
        else (RuneError, 1%nat)
      | _ => (RuneError, 1%nat)
      end
    else (RuneError, 1%nat)
  end.

(** [uint32(r)] of an [int32]. *)
Definition uint32 (r : rune) : Z := r mod 2 ^ 32.

(** [encoderune]: the UTF-8 bytes of a rune; a surrogate or an
    out-of-range value is written as [RuneError]. *)
Definition encode3 (r : rune) : list Z :=
  [ Z.lor t3 (byte (Z.shiftr r 12));
    Z.lor tx (Z.land (byte (Z.shiftr r 6)) maskx);
    Z.lor tx (Z.land (byte r) maskx) ].

Definition encoderune (r : rune) : list Z :=
  let i := uint32 r in
  if i <=? rune1Max then [ byte r ]
  else if i <=? rune2Max then
    [ Z.lor t2 (byte (Z.shiftr r 6));
      Z.lor tx (Z.land (byte r) maskx) ]
  else if (MaxRune <? i) || ((surrogateMin <=? i) && (i <=? surrogateMax))
  then encode3 RuneError
  else if i <=? rune3Max then encode3 r
  else
    [ Z.lor t4 (byte (Z.shiftr r 18));
      Z.lor tx (Z.land (byte (Z.shiftr r 12)) maskx);
      Z.lor tx (Z.land (byte (Z.shiftr r 6)) maskx);
      Z.lor tx (Z.land (byte r) maskx) ].

(** [utf8.ValidRune]. *)
Definition ValidRune (r : rune) : bool :=
  ((0 <=? r) && (r <? surrogateMin))
  || ((surrogateMax <? r) && (r <=? MaxRune)).

End utf8.

(** [for _, char := range line]: the runes of a Go string in order.  A
    byte below [RuneSelf] is its own rune; otherwise [decoderune] gives
    the rune and the position of the next one.  The loop runs while the
    position is inside the string, so the length of the string bounds the
    number of iterations. *)
Fixpoint range_bytes (fuel : nat) (s : list Z) : list rune :=
  match fuel, s with
  | O, _ => []
  | _, [] => []
  | S fuel', s0 :: _ =>
    let (r, size) :=
      if s0 <? utf8.RuneSelf then (s0, 1%nat) else utf8.decoderune s in
    r :: range_bytes fuel' (skipn size s)
  end.

Definition range_string (line : string) : list rune :=
  let s := bytes_of_string line in range_bytes (List.length s) s.

(** [string(result)] for [result []rune]. *)
Definition string_of_runes (result : list rune) : string :=
  string_of_bytes (flat_map utf8.encoderune result).

(** Package [unicode]: [IsControl] looks the rune up in the Latin-1
    property table, where the control characters are U+0000..U+001F and
    U+007F..U+009F; every other rune is not a control character. *)
Module unicode.

Definition MaxLatin1 : Z := 0xFF.

Definition pC (c : Z) : bool :=
  (c <=? 0x1F) || ((0x7F <=? c) && (c <=? 0x9F)).

Definition IsControl (r : rune) : bool :=
  if utf8.uint32 r <=? MaxLatin1 then pC (utf8.uint32 r) else false.

End unicode.

(** ** The process: standard streams, exit status, and the scanner

    A program is a computation over the world it writes to.  [os.Exit]
    stops it with a status; a computation that is not stopped returns a
    value.  The world also records, as ghost state, every call of
    [MatchString] in the order it is made, and the number of lines that
    [scanner.Scan] has delivered. *)

Inductive output : Type :=
| Text (s : string)      (* a string written by fmt *)
| PrintDefaults.         (* the flag package's default usage message *)

Inductive Result (A : Type) : Type :=
| Return (a : A)
| Exit (code : Z).
Arguments Return {A} a.
Arguments Exit {A} code.

Section Process.

(** [Rx] stands for [*regexp.Regexp]. *)
Variable Rx : Type.

Record World : Type := mkWorld {
  stdout : list string;
  stderr : list output;
  evaluated : list (Rx * string);
  scanned : nat
}.

Definition World0 : World := mkWorld [] [] [] 0.

Definition M (A : Type) : Type := World -> Result A * World.

Definition ret {A} (a : A) : M A := fun w => (Return a, w).

Definition bind {A B} (m : M A) (k : A -> M B) : M B :=
  fun w => match m w with
           | (Return a, w') => k a w'
           | (Exit code, w') => (Exit code, w')
           end.

Definition os_Exit {A} (code : Z) : M A := fun w => (Exit code, w).

Definition Println (s : string) : M unit :=
  fun w => (Return tt,
            mkWorld (stdout w ++ [s]) (stderr w) (evaluated w) (scanned w)).

Definition Fprint_stderr (o : output) : M unit :=
  fun w => (Return tt,
            mkWorld (stdout w) (stderr w ++ [o]) (evaluated w) (scanned w)).

Definition note_match (pattern : Rx) (s : string) : M unit :=
  fun w => (Return tt,
            mkWorld (stdout w) (stderr w)
                    (evaluated w ++ [(pattern, s)]) (scanned w)).

Definition note_scan : M unit :=
  fun w => (Return tt,
            mkWorld (stdout w) (stderr w) (evaluated w) (S (scanned w))).

(** The status with which the process ends: the argument of [os.Exit],
    or 0 when [main] returns. *)
Definition status (r : Result unit) : Z :=
  match r with
  | Exit code => code
  | Return _ => 0
  end.

End Process.

Arguments mkWorld {Rx} stdout stderr evaluated scanned.
Arguments stdout {Rx} w.
Arguments stderr {Rx} w.
Arguments evaluated {Rx} w.
Arguments scanned {Rx} w.
Arguments World0 {Rx}.
Arguments ret {Rx A} a.
Arguments bind {Rx A B} m k.
Arguments os_Exit {Rx A} code.
Arguments Println {Rx} s.
Arguments Fprint_stderr {Rx} o.
Arguments note_match {Rx} pattern s.
Arguments note_scan {Rx}.

Declare Scope go_scope.
Delimit Scope go_scope with go.
Notation "x <- m ;; k" := (bind m (fun x => k))
  (at level 61, m at next level, right associativity) : go_scope.
Notation "m ;; k" := (bind m (fun _ => k))
  (at level 61, right associativity) : go_scope.
Open Scope go_scope.

(** [for _, x := range l { body }]. *)
Fixpoint for_range {Rx A} (l : list A) (body : A -> M Rx unit) : M Rx unit :=
  match l with
  | [] => ret tt
  | x :: l' => body x ;; for_range l' body
  end.

(** The input as [bufio.Scanner] delivers it: the lines for which
    [Scan] returns true and [Text] gives the line, then either the end
    of the input ([Err] returns nil) or a read error. *)
Record Stream : Type := mkStream {
  lines : list string;
  err : option string
}.

(** [for scanner.Scan() { line := scanner.Text(); body }]. *)
Fixpoint scan_loop {Rx} (input : list string) (body : string -> M Rx unit)
  : M Rx unit :=
  match input with
  | [] => ret tt
  | line :: input' => note_scan ;; body line ;; scan_loop input' body
  end.

(** ** The libraries behind the programs

    Package [regexp] is not part of the repository: the programs are
    stated over any implementation of the three functions they call.
    [Quote] is the [%q] verb with which package [flag] prints a value. *)
Class Regexp : Type := {
  Rx : Type;
  Compile : string -> Rx + string;
  MatchString : Rx -> string -> bool;
  RxString : Rx -> string;
  Quote : string -> string
}.

Definition nl : string := String (ascii_of_nat 10) "".

(** [strings.Join]. *)
Fixpoint Join (elems : list string) (sep : string) : string :=
  match elems with
  | [] => ""
  | [e] => e
  | e :: rest => e +++ sep +++ Join rest sep
  end.

(** Package [flag], as far as the programs use it.  The command line
    arrives split into the occurrences of the flags a program defines,
    in order.  When the [Set] method of a flag value returns an error,
    [failf] prints the message and the usage; [Parse], which handles
    errors by [ExitOnError], then ends the process with status 2. *)
Definition invalid_value {R : Regexp} (value name error : string) : string :=
  "invalid value " +++ Quote value +++ " for flag -" +++ name +++ ": " +++ error.

Definition failf {R : Regexp} {A} (msg : string) (usage : M Rx unit) : M Rx A :=
  Fprint_stderr (Text (msg +++ nl)) ;; usage ;; os_Exit 2.

(** ** The minimal variant: [src/main.go] *)
Module Minimal.

(** One iteration of the loop of [processLine] over the buffer
    [result]. *)
Definition processLine_step (result : list rune) (char : rune) : list rune :=
  if char =? 8 (* '\b' *) then
    (* Remove the backspace and the previous character (if any) *)
    if (0 <? List.length result)%nat
    then firstn (List.length result - 1) result
    else result
  else if unicode.IsControl char then
    (* Skip all other control characters *)
    result
  else
    result ++ [char].

Definition processLine (line : string) : string :=
  let result := fold_left processLine_step (range_string line) [] in
  string_of_runes result.

Section Program.
Context {R : Regexp}.

Definition RegexSlice : Type := list Rx.

Definition RegexSlice_String (r : RegexSlice) : string :=
  Join (map RxString r) ",".

(** [Set] has a pointer receiver: the slice after the call is
    returned with the error. *)
Definition RegexSlice_Set (r : RegexSlice) (value : string)
  : RegexSlice * option string :=
  match Compile value with
  | inr err =>
    (r, Some ("invalid regex pattern '" +++ value +++ "': " +++ err))
  | inl compiled => (r ++ [compiled], None)
  end.

Inductive flagArg : Type :=
| success (value : string)
| failure (value : string).

(** [flag.Parse()] with the two flags registered by [flag.Var]; the
    usage is the default one. *)
Fixpoint flag_Parse (args : list flagArg)
         (successPatterns failurePatterns : RegexSlice)
  : M Rx (RegexSlice * RegexSlice) :=
  match args with
  | [] => ret (successPatterns, failurePatterns)
  | success value :: args' =>
    match RegexSlice_Set successPatterns value with
    | (successPatterns', None) =>
      flag_Parse args' successPatterns' failurePatterns
    | (_, Some e) =>
      failf (invalid_value value "success" e) (Fprint_stderr PrintDefaults)
    end
  | failure value :: args' =>
    match RegexSlice_Set failurePatterns value with
    | (failurePatterns', None) =>
      flag_Parse args' successPatterns failurePatterns'
    | (_, Some e) =>
      failf (invalid_value value "failure" e) (Fprint_stderr PrintDefaults)
    end
  end.

(** The body of the scanner loop; [note_match] records the call of
    [MatchString] that follows it. *)
Definition loop_body (successPatterns failurePatterns : RegexSlice)
           (line : string) : M Rx unit :=
  let processedLine := processLine line in
  Println processedLine ;;
  for_range successPatterns (fun pattern =>
    note_match pattern processedLine ;;
    if MatchString pattern processedLine then os_Exit 0 else ret tt) ;;
  for_range failurePatterns (fun pattern =>
    note_match pattern processedLine ;;
    if MatchString pattern processedLine then os_Exit 1 else ret tt).

(** The part of [main] that follows the configuration. *)
Definition run (successPatterns failurePatterns : RegexSlice)
           (stdin : Stream) : M Rx unit :=
  scan_loop (lines stdin) (loop_body successPatterns failurePatterns) ;;
  match err stdin with
  | Some e =>
    Fprint_stderr (Text ("Error reading from stdin: " +++ e +++ nl)) ;;
    os_Exit 2
  | None => ret tt
  end.

Definition main (args : list flagArg) (stdin : Stream) : M Rx unit :=
  patterns <- flag_Parse args [] [] ;;
  run (fst patterns) (snd patterns) stdin.

End Program.

End Minimal.

(** ** The extended variant: [src/unnamed/part_001] *)
Module Extended.

Definition processLine_step (result : list rune) (char : rune) : list rune :=
  if char =? 8 (* '\b' *) then
    (* Remove the backspace and the previous character (if any) *)
    if (0 <? List.length result)%nat
    then firstn (List.length result - 1) result
    else result
  else if unicode.IsControl char then
    (* Skip all other control characters *)
    result
  else
    result ++ [char].

Definition processLine (line : string) : string :=
  let result := fold_left processLine_step (range_string line) [] in
  string_of_runes result.

Definition helpText : list string :=
  [ "handytail - process input with pattern matching and exit codes" +++ nl +++ nl;
    "Usage:" +++ nl;
    "  ./handytail [options] < input" +++ nl;
    "  command | ./handytail [options]" +++ nl;
    "  ./handytail [options] /path/to/inputfile" +++ nl +++ nl;
    "Options:" +++ nl;
    "  -success <pattern>   Regex pattern that causes exit with status 0 (can be specified multiple times)" +++ nl;
    "  -failure <pattern>   Regex pattern that causes exit with status 1 (can be specified multiple times)" +++ nl;
    "  -quiet              Disables printing the processed lines to screen" +++ nl;
    "  -help               Show this help message and exit" +++ nl;
    "  arg                 When provided, the program will read from this file instead of stdin" +++ nl +++ nl;
    "Exit Codes:" +++ nl;
    "  0  Success pattern matched" +++ nl;
    "  1  Failure pattern matched" +++ nl;
    "  2  Error reading from stdin or opening file" +++ nl;
    "  3  EOF found but no matching lines were detected" +++ nl ].

Section Program.
Context {R : Regexp}.

Definition RegexSlice : Type := list Rx.

Definition RegexSlice_String (r : RegexSlice) : string :=
  Join (map RxString r) ",".

Definition RegexSlice_Set (r : RegexSlice) (value : string)
  : RegexSlice * option string :=
  match Compile value with
  | inr err =>
    (r, Some ("invalid regex pattern '" +++ value +++ "': " +++ err))
  | inl compiled => (r ++ [compiled], None)
  end.

(** [printHelp] displays usage and exit code information, and ends
    the process. *)
Definition printHelp {A} : M Rx A :=
  for_range helpText (fun s => Fprint_stderr (Text s)) ;;
  os_Exit 99.

Inductive flagArg : Type :=
| success (value : string)
| failure (value : string)
| quiet (value : bool)
| help (value : bool).

Record Flags : Type := mkFlags {
  successPatterns : RegexSlice;
  failurePatterns : RegexSlice;
  quietFlag : bool;
  showHelp : bool
}.

(** [flag.Parse()]; [flag.Usage] is [printHelp]. *)
Fixpoint flag_Parse (args : list flagArg) (f : Flags) : M Rx Flags :=
  match args with
  | [] => ret f
  | success value :: args' =>
    match RegexSlice_Set (successPatterns f) value with
    | (r, None) =>
      flag_Parse args' (mkFlags r (failurePatterns f) (quietFlag f) (showHelp f))
    | (_, Some e) => failf (invalid_value value "success" e) printHelp
    end
  | failure value :: args' =>
    match RegexSlice_Set (failurePatterns f) value with
    | (r, None) =>
      flag_Parse args' (mkFlags (successPatterns f) r (quietFlag f) (showHelp f))
    | (_, Some e) => failf (invalid_value value "failure" e) printHelp
    end
  | quiet value :: args' =>
    flag_Parse args'
      (mkFlags (successPatterns f) (failurePatterns f) value (showHelp f))
  | help value :: args' =>
    flag_Parse args'
      (mkFlags (successPatterns f) (failurePatterns f) (quietFlag f) value)
  end.

Definition loop_body (quiet : bool)
           (successPatterns failurePatterns : RegexSlice)
           (line : string) : M Rx unit :=
  let processedLine := processLine line in
  (if negb quiet then Println processedLine else ret tt) ;;
  for_range successPatterns (fun pattern =>
    note_match pattern processedLine ;;
    if MatchString pattern processedLine then os_Exit 0 else ret tt) ;;
  for_range failurePatterns (fun pattern =>
    note_match pattern processedLine ;;
    if MatchString pattern processedLine then os_Exit 1 else ret tt).

(** The part of [main] that follows the choice of the input. *)
Definition run (quiet : bool)
           (successPatterns failurePatterns : RegexSlice)
           (input : Stream) : M Rx unit :=
  scan_loop (lines input)
            (loop_body quiet successPatterns failurePatterns) ;;
  match err input with
  | Some e =>
    Fprint_stderr (Text ("Error reading from stdin: " +++ e +++ nl)) ;;
    os_Exit 2
  | None =>
    Fprint_stderr (Text "EOF found but no matching lines were detected") ;;
    os_Exit 3
  end.

(** [os_Open] is the file system: the stream of a file, or the error
    of [os.Open]. *)
Definition main (flags : list flagArg) (args : list string)
           (stdin : Stream) (os_Open : string -> Stream + string)
  : M Rx unit :=
  f <- flag_Parse flags (mkFlags [] [] false false) ;;
  (if showHelp f then printHelp else ret tt) ;;
  input <- match args with
           | [] => ret stdin
           | name :: more =>
             (match more with
              | _ :: _ =>
                Fprint_stderr
                  (Text ("Too many positional arguments provided." +++ nl +++ nl)) ;;
                printHelp
              | [] => ret tt
              end) ;;
             match os_Open name with
             | inr e =>
               Fprint_stderr
                 (Text ("Error opening file '" +++ name +++ "': " +++ e +++ nl)) ;;
               os_Exit 2
             | inl file => ret file
             end
           end ;;
  run (quietFlag f) (successPatterns f) (failurePatterns f) input.

End Program.

End Extended.

(** ** The line normaliser as the specification words it

    The buffer is kept with its last code point first, so that removing
    the last code point is taking the tail; the normalised line is the
    buffer read back in order. *)
Module Spec.

Definition is_backspace (c : rune) : bool := c =? 8.

(** The Unicode control category (Cc): the C0 and C1 control codes and
    DEL. *)
Definition is_control (c : rune) : bool :=
  ((0 <=? c) && (c <=? 31)) || ((127 <=? c) && (c <=? 159)).

Fixpoint scan (buffer : list rune) (raw : list rune) : list rune :=
  match raw with
  | [] => rev buffer
  | c :: raw' =>
    if is_backspace c then
      match buffer with
      | [] => scan [] raw'
      | _ :: buffer' => scan buffer' raw'
      end
    else if is_control c then scan buffer raw'
    else scan (c :: buffer) raw'
  end.

Definition normalize (raw : list rune) : list rune := scan [] raw.

End Spec.

(** ** An implementation of the regexp interface on literal patterns

    A pattern that [regexp.QuoteMeta] leaves unchanged denotes itself,
    and [MatchString] is then the search of a substring.  This instance
    is not package [regexp]: it refuses every pattern that holds a
    metacharacter.  It serves to run the programs on inputs whose
    patterns are literal. *)
Module Literal.

(** [strings.Contains]. *)
Fixpoint Contains (s substr : string) : bool :=
  match s with
  | EmptyString => prefix substr EmptyString
  | String _ s' => prefix substr s || Contains s' substr
  end.

(** The characters that [regexp.QuoteMeta] escapes. *)
Definition special (a : ascii) : bool :=
  existsb (Ascii.eqb a) (list_ascii_of_string "\.+*?()|[]{}^$").

Definition Compile (expr : string) : string + string :=
  if existsb special (list_ascii_of_string expr)
  then inr ("error parsing regexp: not a literal: `" +++ expr +++ "`")
  else inl expr.

Definition dquote : string := String (ascii_of_nat 34) "".

#[export] Instance engine : Regexp :=
  Build_Regexp string Compile (fun re s => Contains s re) (fun re => re)
               (fun s => dquote +++ s +++ dquote).

End Literal.

(** The outcome of a program from the initial world. *)
Definition exec {Rx} (m : M Rx unit) : Z * World Rx :=
  let (r, w) := m World0 in (status r, w).

(** ** Notions used to state the properties *)

(** The escapes of the test file. *)
Definition bs : string := String (ascii_of_nat 8) "".
Definition cr : string := String (ascii_of_nat 13) "".
Definition tab : string := String (ascii_of_nat 9) "".
Definition esc : string := String (ascii_of_nat 27) "".
Definition ff : string := String (ascii_of_nat 12) "".
Definition vt : string := String (ascii_of_nat 11) "".

(** A value that fits a byte. *)
Definition is_byte (z : Z) : Prop := 0 <= z < 256.

(** Runes that [utf8.ValidRune] accepts: the Unicode scalar values. *)
Definition valid_runes (rs : list rune) : Prop :=
  Forall (fun r => utf8.ValidRune r = true) rs.

(** A string that is well-formed UTF-8: the encoding of valid runes. *)
Definition well_formed (x : string) : Prop :=
  exists rs, valid_runes rs /\ x = string_of_runes rs.

(** A rune that is not a control character; the backspace is one. *)
Definition not_control (c : rune) : Prop := unicode.IsControl c = false.

Section Notions.
Context {R : Regexp}.

(** Some pattern of the list matches [s]. *)
Definition matches_any (patterns : list Rx) (s : string) : bool :=
  existsb (fun pattern => MatchString pattern s) patterns.

(** The patterns of the list up to the first one that matches [s],
    that one included; the whole list when none matches. *)
Fixpoint upto (patterns : list Rx) (s : string) : list Rx :=
  match patterns with
  | [] => []
  | pattern :: rest =>
    pattern :: (if MatchString pattern s then [] else upto rest s)
  end.

(** The status that a normalised line decides, if any. *)
Definition decision (successPatterns failurePatterns : list Rx)
           (s : string) : option Z :=
  if matches_any successPatterns s then Some 0
  else if matches_any failurePatterns s then Some 1
  else None.

(** The calls of [MatchString] that a normalised line causes. *)
Definition calls (successPatterns failurePatterns : list Rx)
           (s : string) : list (Rx * string) :=
  map (fun pattern => (pattern, s))
      (upto successPatterns s
       ++ (if matches_any successPatterns s then []
           else upto failurePatterns s)).

(** No pattern matches the normalised line. *)
Definition undecided (successPatterns failurePatterns : list Rx)
           (line : string) : Prop :=
  decision successPatterns failurePatterns (Minimal.processLine line) = None.

(** What the lines read add to the standard output. *)
Definition echo (quiet : bool) (read : list string) : list string :=
  if quiet then [] else map Minimal.processLine read.

Definition match_body (code : Z) (s : string) (pattern : Rx) : M Rx unit :=
  note_match pattern s ;;
  if MatchString pattern s then os_Exit code else ret tt.

(** No pattern of the list matches [s]. *)
Definition never (patterns : list Rx) (s : string) : Prop :=
  Forall (fun pattern => MatchString pattern s = false) patterns.

(** No success pattern matches the normalised line. *)
Definition no_success (sp : list Rx) (line : string) : Prop :=
  matches_any sp (Minimal.processLine line) = false.

Section Lines.
Variables (quiet : bool) (sp fp : list Rx).

(** The lines that the loop reads, up to the first one that decides,
    and the status that it decides. *)
Fixpoint consumed (input : list string) : list string * option Z :=
  match input with
  | [] => ([], None)
  | line :: input' =>
    match decision sp fp (Minimal.processLine line) with
    | Some code => ([line], Some code)
    | None => let (read, d) := consumed input' in (line :: read, d)
    end
  end.

(** The world after the lines [read] have gone through the loop. *)
Definition after (read : list string) (w : World Rx) : World Rx :=
  mkWorld (stdout w ++ echo quiet read) (stderr w)
          (evaluated w
           ++ flat_map (fun line => calls sp fp (Minimal.processLine line)) read)
          (scanned w + List.length read).

Definition with_stderr (o : output) (w : World Rx) : World Rx :=
  mkWorld (stdout w) (stderr w ++ [o]) (evaluated w) (scanned w).

End Lines.

(** The error that [Set] returns for a pattern that [regexp.Compile]
    refuses with the error [e]. *)
Definition pattern_error (value e : string) : string :=
  "invalid regex pattern '" +++ value +++ "': " +++ e.

(** What [flag.Parse] prints for the flag [-name value]. *)
Definition flag_error (name value e : string) : output :=
  Text (invalid_value value name (pattern_error value e) +++ nl).

Definition minimal_flag (a : Minimal.flagArg) : string * string :=
  match a with
  | Minimal.success value => ("success", value)
  | Minimal.failure value => ("failure", value)
  end.

Definition extended_flag (a : Extended.flagArg) : option (string * string) :=
  match a with
  | Extended.success value => Some ("success", value)
  | Extended.failure value => Some ("failure", value)
  | _ => None
  end.

(** The flag [a] carries a pattern that [regexp.Compile] refuses with
    the error [e]. *)
Definition refused (a : Extended.flagArg) (name value e : string) : Prop :=
  extended_flag a = Some (name, value) /\ Compile value = inr e.

(** The pattern of the flag compiles. *)
Definition compiles (a : Minimal.flagArg) : Prop :=
  exists re, Compile (snd (minimal_flag a)) = inl re.

(** The occurrence of a flag is one of [-quiet]. *)
Definition is_quiet (a : Extended.flagArg) : bool :=
  match a with
  | Extended.quiet _ => true
  | _ => false
  end.

(** The command line without the occurrences of [-quiet]. *)
Definition but_quiet (flags : list Extended.flagArg) : list Extended.flagArg :=
  filter (fun a => negb (is_quiet a)) flags.

(** Two sets of flag values that differ at most in the quiet flag. *)
Definition same_but_quiet (f g : Extended.Flags) : Prop :=
  Extended.successPatterns f = Extended.successPatterns g
  /\ Extended.failurePatterns f = Extended.failurePatterns g
  /\ Extended.showHelp f = Extended.showHelp g.

(** Two outcomes with the same exit, the same number of lines read, the
    same calls of [MatchString] and the same error output. *)
Definition agree (o1 o2 : Result unit * World Rx) : Prop :=
  fst o1 = fst o2
  /\ scanned (snd o1) = scanned (snd o2)
  /\ evaluated (snd o1) = evaluated (snd o2)
  /\ stderr (snd o1) = stderr (snd o2).

End Notions.

(** ** Package regexp on literal patterns

    [regexp.Compile] reads a pattern as UTF-8.  A character other than
    the metacharacters [\.+*?()|[]{}^$] stands for itself, so that a
    pattern made of such characters is the concatenation of its code
    points, and the empty pattern is the empty concatenation.
    [MatchString] reports whether the string contains a match; the
    package reads the string as runes, the way [range] does, and a
    match of a concatenation of code points is these code points in a
    row.  The model gives this meaning to the patterns of at most
    [maxLiteral] code points, none of them a metacharacter or U+FFFD
    (so the pattern is well-formed UTF-8); every other pattern is left
    to the rest of the package, which stays a parameter. *)
Module regexp.

Definition maxLiteral : nat := 1000.

(** The metacharacters, as runes. *)
Definition special (r : rune) : bool :=
  existsb (Z.eqb r) (bytes_of_string "\.+*?()|[]{}^$").

Definition isLiteral (expr : string) : bool :=
  let runes := range_string expr in
  (List.length runes <=? maxLiteral)%nat
  && forallb (fun r => negb (special r) && negb (r =? utf8.RuneError)) runes.

(** The runes [s] start with the runes [literal]. *)
Fixpoint hasPrefix (s literal : list rune) : bool :=
  match literal, s with
  | [], _ => true
  | _ :: _, [] => false
  | l :: literal', c :: s' => (c =? l) && hasPrefix s' literal'
  end.

(** The runes [literal] occur in a row somewhere in [s]. *)
Fixpoint contains (s literal : list rune) : bool :=
  match s with
  | [] => hasPrefix [] literal
  | _ :: s' => hasPrefix s literal || contains s' literal
  end.

Section Package.

(** The package on the patterns that are not literal. *)
Variable rest : Regexp.

(** A compiled expression: a literal pattern with its source, or what
    the rest of the package compiles. *)
Inductive Compiled : Type :=
| literal (expr : string)
| other (re : @Rx rest).

Definition Compile (expr : string) : Compiled + string :=
  if isLiteral expr then inl (literal expr)
  else match @Compile rest expr with
       | inl re => inl (other re)
       | inr err => inr err
       end.

Definition MatchString (re : Compiled) (s : string) : bool :=
  match re with
  | literal expr => contains (range_string s) (range_string expr)
  | other re' => @MatchString rest re' s
  end.

Definition String (re : Compiled) : string :=
  match re with
  | literal expr => expr
  | other re' => @RxString rest re'
  end.

Definition package : Regexp :=
  Build_Regexp Compiled Compile MatchString String (@Quote rest).

End Package.

End regexp.

(** ** Notions for the further properties *)

(** The string of [n] backspaces. *)
Fixpoint backspaces (n : nat) : string :=
  match n with
  | O => ""
  | S n' => String (ascii_of_nat 8) (backspaces n')
  end.

(** A rune that is a control character. *)
Definition control (c : rune) : Prop := unicode.IsControl c = true.

(** A rune other than the backspace. *)
Definition not_backspace (c : rune) : Prop := c <> 8.

(** The runes of a list that are not control characters, in order. *)
Definition printable (rs : list rune) : list rune :=
  filter (fun c => negb (unicode.IsControl c)) rs.

(** The number of backspaces in a list of runes. *)
Definition count_backspaces (rs : list rune) : nat :=
  List.length (filter (fun c => c =? 8) rs).

Section FurtherNotions.
Context {R : Regexp}.

(** The values given to [-success] and to [-failure] on a command line
    of the minimal variant, in order. *)
Definition success_values (args : list Minimal.flagArg) : list string :=
  flat_map (fun a => match a with
                     | Minimal.success value => [value]
                     | Minimal.failure _ => []
                     end) args.

Definition failure_values (args : list Minimal.flagArg) : list string :=
  flat_map (fun a => match a with
                     | Minimal.success _ => []
                     | Minimal.failure value => [value]
                     end) args.

(** The same for the extended variant, with the value that the last
    [-quiet] and the last [-help] leave, [d] when there is none. *)
Definition extended_success_values (flags : list Extended.flagArg)
  : list string :=
  flat_map (fun a => match a with
                     | Extended.success value => [value]
                     | _ => []
                     end) flags.

Definition extended_failure_values (flags : list Extended.flagArg)
  : list string :=
  flat_map (fun a => match a with
                     | Extended.failure value => [value]
                     | _ => []
                     end) flags.

Definition last_quiet (flags : list Extended.flagArg) (d : bool) : bool :=
  fold_left (fun q a => match a with
                        | Extended.quiet value => value
                        | _ => q
                        end) flags d.

Definition last_help (flags : list Extended.flagArg) (d : bool) : bool :=
  fold_left (fun h a => match a with
                        | Extended.help value => value
                        | _ => h
                        end) flags d.

(** The patterns are what [regexp.Compile] gives for the values, one for
    one and in order. *)
Definition compiled_from (values : list string) (patterns : list Rx) : Prop :=
  Forall2 (fun value re => Compile value = inl re) values patterns.

(** The pattern of the flag, if it has one, compiles. *)
Definition extended_compiles (a : Extended.flagArg) : Prop :=
  match extended_flag a with
  | Some (_, value) => exists re, Compile value = inl re
  | None => True
  end.

(** [regexp.Regexp.String] gives back the text that was compiled. *)
Definition String_is_source : Prop :=
  forall value re, Compile value = inl re -> RxString re = value.

End FurtherNotions.

(** ** Tactics *)

(** Arithmetic on quotients and remainders by constants. *)
Ltac divmod := Z.div_mod_to_equations; lia.

Ltac case_if :=
  match goal with
  | |- context [if ?c then _ else _] => destruct c eqn:?
  end.

Ltac unfold_utf8 :=
  unfold utf8.ValidRune, utf8.cont, utf8.rune1Max, utf8.rune2Max,
    utf8.rune3Max, utf8.MaxRune, utf8.surrogateMin, utf8.surrogateMax,
    utf8.t2, utf8.t3, utf8.t4, utf8.t5, utf8.locb, utf8.hicb,
    utf8.RuneSelf in *.

(** * Properties *)

(** ** The tests of the repository, on the model *)

Example processLine_backspace :
  Minimal.processLine ("hello" +++ bs +++ " world") = "hell world".
Proof. vm_compute. reflexivity. Qed.

Example processLine_backspace_at_beginning :
  Minimal.processLine (bs +++ "hello") = "hello".
Proof. vm_compute. reflexivity. Qed.

Example processLine_backspace_all :
  Minimal.processLine ("test" +++ bs +++ bs +++ bs +++ bs) = "".
Proof. vm_compute. reflexivity. Qed.

Example processLine_unicode :
  Minimal.processLine ("hello 世" +++ bs +++ "界") = "hello 界".
Proof. vm_compute. reflexivity. Qed.

Example processLine_complex :
  Minimal.processLine
    ("hello" +++ bs +++ cr +++ "wo" +++ tab +++ "rld" +++ bs +++ bs +++ bs
             +++ esc +++ " test") = "hellwo test".
Proof. vm_compute. reflexivity. Qed.

Example processLine_only_control :
  Minimal.processLine
    ("hello" +++ cr +++ nl +++ tab +++ ff +++ vt +++ " world") = "hello world".
Proof. vm_compute. reflexivity. Qed.

Example processLine_empty : Minimal.processLine "" = "".
Proof. vm_compute. reflexivity. Qed.

Example main_backspace_reveals_success :
  exec (Minimal.main (R := Literal.engine)
          [Minimal.success "FAISS"; Minimal.failure "FAILURE"]
          (mkStream ["FAILUCESS" +++ bs +++ bs +++ bs +++ bs +++ bs +++ bs +++ "SS";
                     "FAILURE"] None))
  = (0, mkWorld ["FAISS"] [] [("FAISS", "FAISS")] 1).
Proof. vm_compute. reflexivity. Qed.

Example main_build_failed :
  fst (exec (Extended.main (R := Literal.engine)
               [Extended.success "SUCCESS"; Extended.failure "FAILED";
                Extended.quiet true]
               [] (mkStream ["BUILD IN PROGRESS"; "BUILD FAILED"] None)
               (fun _ => inr "no such file or directory")))
  = 1.
Proof. vm_compute. reflexivity. Qed.

Example main_no_decision :
  fst (exec (Extended.main (R := Literal.engine)
               [Extended.success "SUCCESS"; Extended.failure "FAILED"]
               [] (mkStream ["BUILD IN PROGRESS"] None)
               (fun _ => inr "no such file or directory")))
  = 3.
Proof. vm_compute. reflexivity. Qed.

Example main_build_success :
  fst (exec (Minimal.main (R := Literal.engine)
               [Minimal.success "SUCCESS"; Minimal.failure "FAILED"]
               (mkStream ["BUILD IN PROGRESS"; "BUILD SUCCESS"; "BUILD FAILED"] None)))
  = 0.
Proof. vm_compute. reflexivity. Qed.

(** The tests of the repository on literal patterns, on the model of
    package [regexp], whatever the rest of the package. *)
Example regexp_literal_matching (rest : Regexp) :
  exists re,
    regexp.Compile rest "SUCCESS" = inl re
    /\ map (regexp.MatchString rest re)
           ["SUCCESS"; "FAILURE"; "SUCCESS: done"; "success"; ""]
       = [true; false; true; false; false].
Proof. eexists. split; [reflexivity|]. vm_compute. reflexivity. Qed.

Example regexp_empty_pattern_is_valid (rest : Regexp) :
  exists re, regexp.Compile rest "" = inl re.
Proof. eexists. reflexivity. Qed.

(** ** Bytes and bit operations *)

Lemma byteval_range (a : ascii) : 0 <= byteval a < 256.
Proof.
  unfold byteval. pose proof (N_ascii_bounded a). lia.
Qed.

Lemma mkbyte_byteval (a : ascii) : mkbyte (byteval a) = a.
Proof.
  unfold mkbyte, byteval. rewrite N2Z.id. apply ascii_N_embedding.
Qed.

Lemma byteval_mkbyte (z : Z) : 0 <= z < 256 -> byteval (mkbyte z) = z.
Proof.
  intros Hz. unfold mkbyte, byteval.
  rewrite N_ascii_embedding by lia. lia.
Qed.

Lemma string_of_bytes_of_string (s : string) :
  string_of_bytes (bytes_of_string s) = s.
Proof.
  unfold string_of_bytes, bytes_of_string.
  rewrite map_map.
  rewrite (map_ext _ (fun a => a)) by apply mkbyte_byteval.
  rewrite map_id. apply string_of_list_ascii_of_string.
Qed.

Lemma bytes_of_string_of_bytes (l : list Z) :
  Forall is_byte l -> bytes_of_string (string_of_bytes l) = l.
Proof.
  intros Hl. unfold string_of_bytes, bytes_of_string.
  rewrite list_ascii_of_string_of_list_ascii, map_map.
  induction Hl as [|z l Hz _ IH]; simpl; [reflexivity|].
  now rewrite byteval_mkbyte, IH.
Qed.

Lemma bytes_of_string_is_byte (s : string) : Forall is_byte (bytes_of_string s).
Proof.
  unfold bytes_of_string. apply Forall_forall. intros z Hz.
  apply in_map_iff in Hz. destruct Hz as [a [<- _]]. apply byteval_range.
Qed.

(** Setting bits that are clear is adding. *)
Lemma lor_high_low (x y k : Z) :
  0 <= k -> 0 <= y < 2 ^ k -> Z.lor (x * 2 ^ k) y = x * 2 ^ k + y.
Proof.
  intros Hk Hy.
  assert (Hland : Z.land (x * 2 ^ k) y = 0).
  { apply Z.bits_inj'. intros m Hm.
    rewrite Z.land_spec, Z.bits_0.
    destruct (Z.lt_ge_cases m k) as [Hlt|Hge].
    - rewrite Z.mul_pow2_bits_low by assumption. reflexivity.
    - rewrite <- (Z.mod_small y (2 ^ k)) by assumption.
      rewrite Z.mod_pow2_bits_high by lia. apply andb_false_r. }
  rewrite Z.add_nocarry_lxor by assumption.
  symmetry. apply Z.lxor_lor. assumption.
Qed.

Lemma land_mask (x k : Z) : 0 <= k -> Z.land x (2 ^ k - 1) = x mod 2 ^ k.
Proof.
  intros Hk. rewrite <- Z.land_ones by assumption.
  f_equal. rewrite Z.ones_equiv. lia.
Qed.

Lemma byte_mod (x : Z) : byte x = x mod 256.
Proof. unfold byte. change 0xFF with (2 ^ 8 - 1). now rewrite land_mask. Qed.

Lemma land_maskx (x : Z) : Z.land x utf8.maskx = x mod 64.
Proof. change utf8.maskx with (2 ^ 6 - 1). now rewrite land_mask. Qed.

Lemma land_mask2 (x : Z) : Z.land x utf8.mask2 = x mod 32.
Proof. change utf8.mask2 with (2 ^ 5 - 1). now rewrite land_mask. Qed.

Lemma land_mask3 (x : Z) : Z.land x utf8.mask3 = x mod 16.
Proof. change utf8.mask3 with (2 ^ 4 - 1). now rewrite land_mask. Qed.

Lemma land_mask4 (x : Z) : Z.land x utf8.mask4 = x mod 8.
Proof. change utf8.mask4 with (2 ^ 3 - 1). now rewrite land_mask. Qed.

Lemma lor_tx (y : Z) : 0 <= y < 64 -> Z.lor utf8.tx y = 128 + y.
Proof. intros Hy. change utf8.tx with (2 * 2 ^ 6). now rewrite lor_high_low. Qed.

Lemma lor_t2 (y : Z) : 0 <= y < 32 -> Z.lor utf8.t2 y = 192 + y.
Proof. intros Hy. change utf8.t2 with (6 * 2 ^ 5). now rewrite lor_high_low. Qed.

Lemma lor_t3 (y : Z) : 0 <= y < 16 -> Z.lor utf8.t3 y = 224 + y.
Proof. intros Hy. change utf8.t3 with (14 * 2 ^ 4). now rewrite lor_high_low. Qed.

Lemma lor_t4 (y : Z) : 0 <= y < 8 -> Z.lor utf8.t4 y = 240 + y.
Proof. intros Hy. change utf8.t4 with (30 * 2 ^ 3). now rewrite lor_high_low. Qed.

Lemma uint32_small (r : rune) : 0 <= r < 2 ^ 32 -> utf8.uint32 r = r.
Proof. intros Hr. unfold utf8.uint32. now apply Z.mod_small. Qed.

(** ** The encoder, by the length of the encoding *)

Lemma encoderune_1 (r : rune) : 0 <= r <= 0x7F -> utf8.encoderune r = [r].
Proof.
  intros Hr. unfold utf8.encoderune.
  rewrite uint32_small by lia.
  unfold utf8.rune1Max.
  destruct (Z.leb_spec r 0x7F); [|lia].
  rewrite byte_mod. f_equal. divmod.
Qed.

Lemma encoderune_2 (r : rune) :
  0x80 <= r <= 0x7FF ->
  utf8.encoderune r = [192 + r / 64; 128 + r mod 64].
Proof.
  intros Hr. unfold utf8.encoderune.
  rewrite uint32_small by lia.
  unfold utf8.rune1Max, utf8.rune2Max.
  destruct (Z.leb_spec r 0x7F); [lia|].
  destruct (Z.leb_spec r 0x7FF); [|lia].
  rewrite !byte_mod, land_maskx, Z.shiftr_div_pow2 by lia.
  change (2 ^ 6) with 64.
  rewrite lor_t2, lor_tx by divmod.
  f_equal; [|f_equal]; divmod.
Qed.

Lemma encode3_eq (r : rune) :
  0x800 <= r <= 0xFFFF ->
  utf8.encode3 r = [224 + r / 4096; 128 + (r / 64) mod 64; 128 + r mod 64].
Proof.
  intros Hr. unfold utf8.encode3.
  rewrite !byte_mod, !land_maskx, !Z.shiftr_div_pow2 by lia.
  change (2 ^ 6) with 64. change (2 ^ 12) with 4096.
  rewrite lor_t3, !lor_tx by divmod.
  f_equal; [|f_equal; [|f_equal]]; divmod.
Qed.

Lemma encoderune_3 (r : rune) :
  0x800 <= r <= 0xFFFF -> ~ (0xD800 <= r <= 0xDFFF) ->
  utf8.encoderune r = [224 + r / 4096; 128 + (r / 64) mod 64; 128 + r mod 64].
Proof.
  intros Hr Hs. unfold utf8.encoderune.
  rewrite uint32_small by lia.
  unfold utf8.rune1Max, utf8.rune2Max, utf8.rune3Max, utf8.MaxRune,
    utf8.surrogateMin, utf8.surrogateMax.
  destruct (Z.leb_spec r 0x7F); [lia|].
  destruct (Z.leb_spec r 0x7FF); [lia|].
  destruct (Z.ltb_spec 0x10FFFF r); [lia|].
  destruct (Z.leb_spec 0xD800 r); destruct (Z.leb_spec r 0xDFFF);
    try lia; cbn [orb andb];
    (destruct (Z.leb_spec r 0xFFFF); [|lia]); now apply encode3_eq.
Qed.

Lemma encoderune_4 (r : rune) :
  0x10000 <= r <= 0x10FFFF ->
  utf8.encoderune r =
  [240 + r / 262144; 128 + (r / 4096) mod 64; 128 + (r / 64) mod 64;
   128 + r mod 64].
Proof.
  intros Hr. unfold utf8.encoderune.
  rewrite uint32_small by lia.
  unfold utf8.rune1Max, utf8.rune2Max, utf8.rune3Max, utf8.MaxRune,
    utf8.surrogateMin, utf8.surrogateMax.
  destruct (Z.leb_spec r 0x7F); [lia|].
  destruct (Z.leb_spec r 0x7FF); [lia|].
  destruct (Z.ltb_spec 0x10FFFF r); [lia|].
  destruct (Z.leb_spec 0xD800 r); destruct (Z.leb_spec r 0xDFFF);
    try lia; cbn [orb andb].
  destruct (Z.leb_spec r 0xFFFF); [lia|].
  rewrite !byte_mod, !land_maskx, !Z.shiftr_div_pow2 by lia.
  change (2 ^ 6) with 64. change (2 ^ 12) with 4096.
  change (2 ^ 18) with 262144.
  rewrite lor_t4, !lor_tx by divmod.
  f_equal; [|f_equal; [|f_equal; [|f_equal]]]; divmod.
Qed.

Lemma lor_disjoint (x y k : Z) :
  0 <= k -> 0 <= y < 2 ^ k -> x mod 2 ^ k = 0 -> Z.lor x y = x + y.
Proof.
  intros Hk Hy Hx.
  assert (H2 : 0 < 2 ^ k) by (apply Z.pow_pos_nonneg; lia).
  pose proof (Z.div_mod x (2 ^ k) ltac:(lia)) as Hd.
  rewrite Hx, Z.add_0_r, Z.mul_comm in Hd.
  rewrite Hd. now apply lor_high_low.
Qed.

(** ** The decoder, by the length of the sequence *)

(** The value that [decoderune] computes from two, three and four
    bytes. *)
Lemma decode2_value (s0 s1 : Z) :
  Z.lor (Z.shiftl (Z.land s0 utf8.mask2) 6) (Z.land s1 utf8.maskx)
  = s0 mod 32 * 64 + s1 mod 64.
Proof.
  rewrite land_mask2, land_maskx, Z.shiftl_mul_pow2 by lia.
  change (2 ^ 6) with 64.
  apply (lor_disjoint _ _ 6); [lia| change (2 ^ 6) with 64; divmod |].
  change (2 ^ 6) with 64. divmod.
Qed.

Lemma decode3_value (s0 s1 s2 : Z) :
  Z.lor (Z.lor (Z.shiftl (Z.land s0 utf8.mask3) 12)
               (Z.shiftl (Z.land s1 utf8.maskx) 6))
        (Z.land s2 utf8.maskx)
  = s0 mod 16 * 4096 + s1 mod 64 * 64 + s2 mod 64.
Proof.
  rewrite land_mask3, !land_maskx, !Z.shiftl_mul_pow2 by lia.
  change (2 ^ 6) with 64. change (2 ^ 12) with 4096.
  rewrite (lor_disjoint (s0 mod 16 * 4096) _ 12);
    [| lia | change (2 ^ 12) with 4096; divmod
     | change (2 ^ 12) with 4096; divmod ].
  apply (lor_disjoint _ _ 6); [lia| change (2 ^ 6) with 64; divmod |].
  change (2 ^ 6) with 64. divmod.
Qed.

Lemma decode4_value (s0 s1 s2 s3 : Z) :
  Z.lor (Z.lor (Z.lor (Z.shiftl (Z.land s0 utf8.mask4) 18)
                      (Z.shiftl (Z.land s1 utf8.maskx) 12))
               (Z.shiftl (Z.land s2 utf8.maskx) 6))
        (Z.land s3 utf8.maskx)
  = s0 mod 8 * 262144 + s1 mod 64 * 4096 + s2 mod 64 * 64 + s3 mod 64.
Proof.
  rewrite land_mask4, !land_maskx, !Z.shiftl_mul_pow2 by lia.
  change (2 ^ 6) with 64. change (2 ^ 12) with 4096.
  change (2 ^ 18) with 262144.
  rewrite (lor_disjoint (s0 mod 8 * 262144) _ 18);
    [| lia | change (2 ^ 18) with 262144; divmod
     | change (2 ^ 18) with 262144; divmod ].
  rewrite (lor_disjoint (s0 mod 8 * 262144 + s1 mod 64 * 4096) _ 12);
    [| lia | change (2 ^ 12) with 4096; divmod
     | change (2 ^ 12) with 4096; divmod ].
  apply (lor_disjoint _ _ 6); [lia| change (2 ^ 6) with 64; divmod |].
  change (2 ^ 6) with 64. divmod.
Qed.

Lemma RuneError_valid : utf8.ValidRune utf8.RuneError = true.
Proof. reflexivity. Qed.

Lemma decoderune_valid (s : list Z) :
  utf8.ValidRune (fst (utf8.decoderune s)) = true.
Proof.
  unfold utf8.decoderune.
  destruct s as [|s0 [|s1 [|s2 [|s3 rest]]]]; cbv zeta;
    rewrite ?decode2_value, ?decode3_value, ?decode4_value;
    repeat case_if; cbn [fst]; try apply RuneError_valid;
    unfold_utf8; try (Z.div_mod_to_equations; lia).
Qed.

Lemma decoderune_size (s : list Z) : (1 <= snd (utf8.decoderune s))%nat.
Proof.
  unfold utf8.decoderune.
  destruct s as [|s0 [|s1 [|s2 [|s3 rest]]]]; cbv zeta;
    repeat case_if; cbn [snd]; lia.
Qed.

(** ** The range loop over a string *)

Lemma range_bytes_nil (n : nat) : range_bytes n [] = [].
Proof. destruct n; reflexivity. Qed.

Lemma skipn_shorter {A} (k : nat) (s : list A) :
  (1 <= k)%nat -> s <> [] -> (List.length (skipn k s) < List.length s)%nat.
Proof.
  intros Hk Hs. rewrite length_skipn.
  destruct s; [congruence|]. cbn [List.length]. lia.
Qed.

Lemma Forall_skipn' {A} (P : A -> Prop) (k : nat) (l : list A) :
  Forall P l -> Forall P (skipn k l).
Proof.
  intros H. rewrite <- (firstn_skipn k l) in H.
  now apply Forall_app in H.
Qed.

Lemma Forall_firstn' {A} (P : A -> Prop) (k : nat) (l : list A) :
  Forall P l -> Forall P (firstn k l).
Proof.
  intros H. rewrite <- (firstn_skipn k l) in H.
  now apply Forall_app in H.
Qed.

(** Any number of iterations that reaches the end of the string gives
    the same runes. *)
Lemma range_bytes_fuel (n m : nat) (s : list Z) :
  (List.length s <= n)%nat -> (List.length s <= m)%nat ->
  range_bytes n s = range_bytes m s.
Proof.
  revert m s. induction n as [|n IH]; intros m s Hn Hm.
  - destruct s; [|simpl in Hn; lia]. now rewrite !range_bytes_nil.
  - destruct s as [|s0 s']; [now rewrite !range_bytes_nil|].
    destruct m as [|m]; [simpl in Hm; lia|].
    cbn [range_bytes].
    set (d := if s0 <? utf8.RuneSelf then (s0, 1%nat)
              else utf8.decoderune (s0 :: s')).
    assert (Hd : (1 <= snd d)%nat).
    { subst d. destruct (s0 <? utf8.RuneSelf); [cbn; lia|].
      apply decoderune_size. }
    destruct d as [r size]. cbn [snd] in Hd.
    f_equal.
    pose proof (skipn_shorter size (s0 :: s') Hd ltac:(discriminate)).
    apply IH; lia.
Qed.

Lemma range_bytes_valid (n : nat) (s : list Z) :
  Forall is_byte s ->
  Forall (fun r => utf8.ValidRune r = true) (range_bytes n s).
Proof.
  revert s. induction n as [|n IH]; intros s Hs; [constructor|].
  destruct s as [|s0 s']; [constructor|].
  cbn [range_bytes].
  destruct (s0 <? utf8.RuneSelf) eqn:Hself.
  - constructor.
    + inversion Hs as [|? ? Hb _]; subst. unfold is_byte in Hb.
      unfold_utf8. lia.
    + apply IH. now apply Forall_skipn'.
  - pose proof (decoderune_valid (s0 :: s')) as Hv.
    destruct (utf8.decoderune (s0 :: s')) as [r size].
    constructor; [exact Hv|]. apply IH. now apply Forall_skipn'.
Qed.

Lemma range_string_valid (line : string) :
  Forall (fun r => utf8.ValidRune r = true) (range_string line).
Proof.
  unfold range_string. apply range_bytes_valid, bytes_of_string_is_byte.
Qed.

(** The first rune of the encoding of a valid rune, followed by any
    bytes, is that rune, and the loop goes on after its encoding. *)
Lemma ValidRune_cases (r : rune) :
  utf8.ValidRune r = true ->
  0 <= r <= 0x7F \/ 0x80 <= r <= 0x7FF
  \/ (0x800 <= r <= 0xFFFF /\ ~ (0xD800 <= r <= 0xDFFF))
  \/ 0x10000 <= r <= 0x10FFFF.
Proof. unfold_utf8. lia. Qed.

Lemma range_bytes_encoderune (n : nat) (r : rune) (rest : list Z) :
  utf8.ValidRune r = true ->
  range_bytes (S n) (utf8.encoderune r ++ rest) = r :: range_bytes n rest.
Proof.
  intros Hr.
  destruct (ValidRune_cases r Hr) as [H1|[H2|[[H3 Hs]|H4]]].
  - rewrite encoderune_1 by assumption. cbn [app range_bytes].
    unfold utf8.RuneSelf.
    destruct (Z.ltb_spec r 0x80); [reflexivity|lia].
  - rewrite encoderune_2 by assumption. cbn [app range_bytes].
    unfold utf8.RuneSelf.
    destruct (Z.ltb_spec (192 + r / 64) 0x80); [divmod|].
    unfold utf8.decoderune. cbv zeta. rewrite decode2_value. unfold_utf8.
    repeat case_if; try divmod.
    cbn [skipn]. f_equal. divmod.
  - rewrite encoderune_3 by assumption. cbn [app range_bytes].
    unfold utf8.RuneSelf.
    destruct (Z.ltb_spec (224 + r / 4096) 0x80); [divmod|].
    unfold utf8.decoderune. cbv zeta. rewrite decode3_value. unfold_utf8.
    repeat case_if; try divmod.
    cbn [skipn]. f_equal. divmod.
  - rewrite encoderune_4 by assumption. cbn [app range_bytes].
    unfold utf8.RuneSelf.
    destruct (Z.ltb_spec (240 + r / 262144) 0x80); [divmod|].
    unfold utf8.decoderune. cbv zeta. rewrite decode4_value. unfold_utf8.
    repeat case_if; try divmod.
    cbn [skipn]. f_equal. divmod.
Qed.

Lemma encoderune_is_byte (r : rune) :
  utf8.ValidRune r = true -> Forall is_byte (utf8.encoderune r).
Proof.
  intros Hr. unfold is_byte.
  destruct (ValidRune_cases r Hr) as [H1|[H2|[[H3 Hs]|H4]]].
  - rewrite encoderune_1 by assumption. repeat constructor; lia.
  - rewrite encoderune_2 by assumption. repeat constructor; divmod.
  - rewrite encoderune_3 by assumption. repeat constructor; divmod.
  - rewrite encoderune_4 by assumption. repeat constructor; divmod.
Qed.

Lemma encoderune_nonempty (r : rune) :
  (1 <= List.length (utf8.encoderune r))%nat.
Proof.
  unfold utf8.encoderune, utf8.encode3. cbv zeta.
  repeat case_if; cbn [List.length]; lia.
Qed.

Lemma range_bytes_encode (rs : list rune) (n : nat) :
  valid_runes rs ->
  (List.length (flat_map utf8.encoderune rs) <= n)%nat ->
  range_bytes n (flat_map utf8.encoderune rs) = rs.
Proof.
  intros Hrs. revert n.
  induction Hrs as [|r rs Hr _ IH]; intros n Hn.
  - apply range_bytes_nil.
  - cbn [flat_map] in *. rewrite length_app in Hn.
    pose proof (encoderune_nonempty r).
    destruct n as [|n]; [lia|].
    rewrite range_bytes_encoderune by assumption.
    f_equal. apply IH. lia.
Qed.

Lemma encode_is_byte (rs : list rune) :
  valid_runes rs -> Forall is_byte (flat_map utf8.encoderune rs).
Proof.
  induction 1 as [|r rs Hr _ IH]; cbn [flat_map]; [constructor|].
  apply Forall_app. split; [now apply encoderune_is_byte|assumption].
Qed.

(** Reading back the string of a slice of valid runes gives the
    slice. *)
Lemma range_string_of_runes (rs : list rune) :
  valid_runes rs -> range_string (string_of_runes rs) = rs.
Proof.
  intros Hrs. unfold range_string, string_of_runes.
  rewrite bytes_of_string_of_bytes by now apply encode_is_byte.
  now apply range_bytes_encode.
Qed.

(** ** The loop of processLine *)

Lemma IsControl_backspace (c : rune) :
  (c =? 8) = true -> unicode.IsControl c = true.
Proof. intros H. apply Z.eqb_eq in H. subst c. reflexivity. Qed.

Lemma firstn_pred_snoc {A} (l : list A) (x : A) :
  firstn (List.length (l ++ [x]) - 1) (l ++ [x]) = l.
Proof.
  rewrite length_app. cbn [List.length].
  replace (List.length l + 1 - 1)%nat with (List.length l + 0)%nat by lia.
  rewrite firstn_app_2. cbn. apply app_nil_r.
Qed.

Lemma forallb_not_control (rs : list rune) :
  forallb (fun c => negb (unicode.IsControl c)) rs = true ->
  Forall not_control rs.
Proof.
  intros H. apply Forall_forall. intros c Hc.
  rewrite forallb_forall in H. specialize (H c Hc).
  unfold not_control. now destruct (unicode.IsControl c).
Qed.

Section Loop.

Import Minimal.

Lemma step_valid (result : list rune) (char : rune) :
  valid_runes result -> utf8.ValidRune char = true ->
  valid_runes (processLine_step result char).
Proof.
  intros Hres Hc. unfold processLine_step.
  repeat case_if; try assumption.
  - now apply Forall_firstn'.
  - apply Forall_app. split; [assumption|]. now constructor.
Qed.

Lemma loop_valid (chars result : list rune) :
  valid_runes result -> valid_runes chars ->
  valid_runes (fold_left processLine_step chars result).
Proof.
  intros Hres Hchars. revert result Hres.
  induction Hchars as [|c chars Hc _ IH]; intros result Hres; cbn.
  - assumption.
  - apply IH. now apply step_valid.
Qed.

Lemma step_not_control (result : list rune) (char : rune) :
  Forall not_control result ->
  Forall not_control (processLine_step result char).
Proof.
  intros Hres. unfold processLine_step.
  repeat case_if; try assumption.
  - now apply Forall_firstn'.
  - apply Forall_app. split; [assumption|]. now constructor.
Qed.

Lemma loop_not_control (chars result : list rune) :
  Forall not_control result ->
  Forall not_control (fold_left processLine_step chars result).
Proof.
  revert result. induction chars as [|c chars IH]; intros result Hres; cbn.
  - assumption.
  - apply IH. now apply step_not_control.
Qed.

Lemma step_length (result : list rune) (char : rune) :
  (List.length (processLine_step result char) <= List.length result + 1)%nat.
Proof.
  unfold processLine_step. repeat case_if.
  - rewrite length_firstn. lia.
  - lia.
  - lia.
  - rewrite length_app. cbn. lia.
Qed.

Lemma loop_length (chars result : list rune) :
  (List.length (fold_left processLine_step chars result)
   <= List.length result + List.length chars)%nat.
Proof.
  revert result. induction chars as [|c chars IH]; intros result; cbn.
  - lia.
  - specialize (IH (processLine_step result c)).
    pose proof (step_length result c). lia.
Qed.

Lemma loop_identity (chars result : list rune) :
  Forall not_control chars ->
  fold_left processLine_step chars result = result ++ chars.
Proof.
  intros Hchars. revert result.
  induction Hchars as [|c chars Hc _ IH]; intros result; cbn.
  - now rewrite app_nil_r.
  - rewrite IH. unfold processLine_step.
    destruct (c =? 8) eqn:Hb.
    + apply IsControl_backspace in Hb. unfold not_control in Hc. congruence.
    + unfold not_control in Hc. rewrite Hc.
      now rewrite <- app_assoc.
Qed.

(** The control characters of package [unicode] are those of the
    specification on every rune that a string can hold. *)
Lemma IsControl_spec (c : rune) :
  utf8.ValidRune c = true -> unicode.IsControl c = Spec.is_control c.
Proof.
  intros Hc. unfold unicode.IsControl, Spec.is_control, unicode.pC,
    unicode.MaxLatin1.
  rewrite uint32_small by (unfold_utf8; lia).
  unfold_utf8.
  destruct (Z.leb_spec c 0xFF); lia.
Qed.

(** The loop against the scan of the specification: the buffer of the
    scan is the buffer of the loop, last rune first. *)
Lemma loop_scan (chars result : list rune) :
  valid_runes chars ->
  fold_left processLine_step chars result = Spec.scan (rev result) chars.
Proof.
  intros Hchars. revert result.
  induction Hchars as [|c chars Hc _ IH]; intros result; cbn.
  - now rewrite rev_involutive.
  - rewrite IH. unfold processLine_step, Spec.is_backspace.
    rewrite <- (IsControl_spec c Hc).
    destruct (c =? 8); [|destruct (unicode.IsControl c)].
    + destruct result as [|x result _] using rev_ind.
      * reflexivity.
      * rewrite length_app, Nat.add_comm. cbn [List.length Nat.add Nat.ltb Nat.leb].
        rewrite rev_app_distr. cbn [rev app].
        f_equal.
        pose proof (firstn_pred_snoc result x) as Hf.
        rewrite length_app, Nat.add_comm in Hf. cbn [List.length Nat.add] in Hf.
        rewrite Hf. reflexivity.
    + reflexivity.
    + rewrite rev_app_distr. reflexivity.
Qed.

End Loop.

(** The two variants normalise a line in the same way. *)
Lemma processLine_same (line : string) :
  Extended.processLine line = Minimal.processLine line.
Proof. reflexivity. Qed.

(** The runes of a normalised line are the buffer at the end of the
    loop. *)
Lemma range_processLine (line : string) :
  range_string (Minimal.processLine line)
  = fold_left Minimal.processLine_step (range_string line) [].
Proof.
  unfold Minimal.processLine. apply range_string_of_runes.
  apply loop_valid; [constructor|apply range_string_valid].
Qed.

(** ** The normaliser *)

(** C1. In both variants, [processLine] is the scan that the
    specification describes, run over the code points of the raw line
    from an empty buffer: a backspace removes the last code point of a
    non-empty buffer and leaves an empty buffer empty, any other control
    character leaves the buffer as it is, every other code point is
    appended; the normalised line is the string of the final buffer, and
    its code points are that buffer. *)
Theorem processLine_refines_normalize (line : string) :
  Minimal.processLine line
  = string_of_runes (Spec.normalize (range_string line))
  /\ range_string (Minimal.processLine line)
     = Spec.normalize (range_string line)
  /\ Extended.processLine line
     = string_of_runes (Spec.normalize (range_string line))
  /\ range_string (Extended.processLine line)
     = Spec.normalize (range_string line).
Proof.
  pose proof (range_string_valid line) as Hv.
  assert (H1 : Minimal.processLine line
               = string_of_runes (Spec.normalize (range_string line))).
  { unfold Minimal.processLine, Spec.normalize.
    now rewrite loop_scan. }
  assert (H2 : range_string (Minimal.processLine line)
               = Spec.normalize (range_string line)).
  { rewrite range_processLine. unfold Spec.normalize. now rewrite loop_scan. }
  repeat split; first [exact H1 | exact H2].
Qed.

(** C4. Normalising a normalised line changes nothing, and a normalised
    line holds no backspace and no other control character. *)
Theorem processLine_idempotent (x : string) :
  Minimal.processLine (Minimal.processLine x) = Minimal.processLine x
  /\ Extended.processLine (Extended.processLine x) = Extended.processLine x
  /\ Forall (fun c => c <> 8 /\ unicode.IsControl c = false)
            (range_string (Minimal.processLine x)).
Proof.
  assert (Hnc : Forall not_control (range_string (Minimal.processLine x))).
  { rewrite range_processLine. apply loop_not_control. constructor. }
  assert (H1 : Minimal.processLine (Minimal.processLine x)
               = Minimal.processLine x).
  { unfold Minimal.processLine at 1.
    rewrite loop_identity by assumption.
    cbn [app]. rewrite range_processLine. reflexivity. }
  repeat split; try exact H1.
  eapply Forall_impl; [|exact Hnc].
  intros c Hc. split; [|exact Hc].
  intros ->. discriminate Hc.
Qed.

(** C6. A normalised line has at most as many code points as the raw
    line. *)
Theorem processLine_length (x : string) :
  (List.length (range_string (Minimal.processLine x))
   <= List.length (range_string x))%nat.
Proof.
  rewrite range_processLine.
  pose proof (loop_length (range_string x) []) as H. cbn in H. exact H.
Qed.

(** C7, as the code has it. A line that is well-formed UTF-8 and has no
    control character is its own normalised line; and for any line
    without control characters, the normalised line has the code points
    of the line, where a byte that is not part of a well-formed sequence
    counts as U+FFFD. *)
Theorem processLine_no_control :
  (forall x : string,
      well_formed x -> Forall not_control (range_string x) ->
      Minimal.processLine x = x)
  /\ (forall x : string,
         Forall not_control (range_string x) ->
         range_string (Minimal.processLine x) = range_string x).
Proof.
  split.
  - intros x [rs [Hv ->]] Hc. unfold Minimal.processLine.
    rewrite range_string_of_runes in * by assumption.
    now rewrite loop_identity.
  - intros x Hc. rewrite range_processLine. now rewrite loop_identity.
Qed.

Lemma processLine_no_control_witness :
  Minimal.processLine "hello 世界" = "hello 世界"
  /\ range_string (Minimal.processLine "hello 世界") = range_string "hello 世界".
Proof.
  split.
  - apply (proj1 processLine_no_control).
    + exists [104; 101; 108; 108; 111; 32; 19990; 30028]. split.
      * repeat constructor.
      * vm_compute. reflexivity.
    + apply forallb_not_control. vm_compute. reflexivity.
  - apply (proj2 processLine_no_control).
    apply forallb_not_control. vm_compute. reflexivity.
Defined.

(** C7 as the specification states it fails on a byte that is not UTF-8: the
    line made of the byte 0xFF has no control character, and its
    normalised line is the three bytes of U+FFFD. *)
Lemma processLine_no_control_counterexample :
  let x := String (ascii_of_nat 255) "" in
  Forall not_control (range_string x)
  /\ Minimal.processLine x
     = String (ascii_of_nat 239) (String (ascii_of_nat 191)
         (String (ascii_of_nat 189) ""))
  /\ Minimal.processLine x <> x.
Proof.
  cbv zeta. split; [|split].
  - apply forallb_not_control. vm_compute. reflexivity.
  - vm_compute. reflexivity.
  - vm_compute. discriminate.
Qed.

(** ** The decision for one line *)

Section Decision.
Context {R : Regexp}.

Lemma for_range_match (code : Z) (s : string) (patterns : list Rx)
      (w : World Rx) :
  for_range patterns (match_body code s) w
  = (if matches_any patterns s then Exit code else Return tt,
     mkWorld (stdout w) (stderr w)
             (evaluated w ++ map (fun p => (p, s)) (upto patterns s))
             (scanned w)).
Proof.
  revert w. induction patterns as [|p ps IH]; intros [out errs ev n].
  - cbn [for_range matches_any existsb upto map ret
           stdout stderr evaluated scanned].
    unfold ret. now rewrite app_nil_r.
  - cbn [for_range]. unfold bind at 1. unfold match_body at 1.
    unfold bind at 1. unfold note_match at 1.
    cbn [stdout stderr evaluated scanned].
    cbn [matches_any existsb upto].
    destruct (MatchString p s) eqn:Hp.
    + unfold os_Exit. cbn [orb map]. reflexivity.
    + unfold ret at 1. cbn [orb]. rewrite IH.
      cbn [stdout stderr evaluated scanned map].
      fold (matches_any ps s).
      now rewrite <- app_assoc.
Qed.

Lemma loop_body_eq (quiet : bool) (sp fp : list Rx) (line : string)
      (w : World Rx) :
  Extended.loop_body quiet sp fp line w
  = (match decision sp fp (Minimal.processLine line) with
     | Some code => Exit code
     | None => Return tt
     end,
     mkWorld (stdout w ++ echo quiet [line]) (stderr w)
             (evaluated w ++ calls sp fp (Minimal.processLine line))
             (scanned w)).
Proof.
  unfold Extended.loop_body. cbv zeta.
  change Extended.processLine with Minimal.processLine.
  set (s := Minimal.processLine line).
  fold (match_body 0 s). fold (match_body 1 s).
  unfold bind at 1.
  assert (Hecho : (if negb quiet then Println s else ret tt) w
                  = (Return tt,
                     mkWorld (stdout w ++ echo quiet [line]) (stderr w)
                             (evaluated w) (scanned w))).
  { destruct w as [out errs ev n]. unfold echo, Println, ret.
    cbn [stdout stderr evaluated scanned map].
    destruct quiet; cbn [negb].
    - now rewrite app_nil_r.
    - reflexivity. }
  rewrite Hecho. unfold bind. rewrite for_range_match.
  cbn [stdout stderr evaluated scanned].
  unfold decision, calls.
  destruct (matches_any sp s).
  - now rewrite app_nil_r.
  - rewrite for_range_match. cbn [stdout stderr evaluated scanned].
    rewrite map_app, app_assoc.
    destruct (matches_any fp s); reflexivity.
Qed.

Lemma minimal_loop_body (sp fp : list Rx) :
  Minimal.loop_body sp fp = Extended.loop_body false sp fp.
Proof. reflexivity. Qed.

End Decision.

(** ** The scanner loop *)

Section Run.
Context {R : Regexp}.
Variables (quiet : bool) (sp fp : list Rx).

Lemma after_nil (w : World Rx) : after quiet sp fp [] w = w.
Proof.
  destruct w as [out errs ev n]. unfold after, echo.
  cbn [stdout stderr evaluated scanned flat_map map List.length].
  destruct quiet; now rewrite !app_nil_r, Nat.add_0_r.
Qed.

Lemma after_cons (line : string) (read : list string) (w : World Rx) :
  after quiet sp fp read
        (mkWorld (stdout w ++ echo quiet [line]) (stderr w)
                 (evaluated w ++ calls sp fp (Minimal.processLine line))
                 (S (scanned w)))
  = after quiet sp fp (line :: read) w.
Proof.
  unfold after, echo. cbn [stdout stderr evaluated scanned flat_map List.length].
  f_equal.
  - destruct quiet; [now rewrite app_nil_r|].
    now rewrite <- app_assoc.
  - now rewrite <- app_assoc.
  - lia.
Qed.

Lemma scan_loop_eq (input : list string) (w : World Rx) :
  scan_loop input (Extended.loop_body quiet sp fp) w
  = (match snd (consumed sp fp input) with
     | Some code => Exit code
     | None => Return tt
     end,
     after quiet sp fp (fst (consumed sp fp input)) w).
Proof.
  revert w. induction input as [|line input IH]; intros w.
  - cbn [scan_loop consumed fst snd]. now rewrite after_nil.
  - cbn [scan_loop consumed]. unfold bind at 1. unfold note_scan at 1.
    unfold bind at 1. rewrite loop_body_eq.
    cbn [stdout stderr evaluated scanned].
    destruct (decision sp fp (Minimal.processLine line)) as [code|].
    + cbn [fst snd]. now rewrite <- after_cons, after_nil.
    + rewrite IH. destruct (consumed sp fp input) as [read d]. cbn [fst snd].
      now rewrite after_cons.
Qed.

Lemma consumed_undecided (input : list string) :
  Forall (undecided sp fp) input -> consumed sp fp input = (input, None).
Proof.
  induction 1 as [|line input Hl _ IH]; cbn [consumed]; [reflexivity|].
  unfold undecided in Hl. now rewrite Hl, IH.
Qed.

Lemma consumed_decisive (pre post : list string) (line : string) (code : Z) :
  Forall (undecided sp fp) pre ->
  decision sp fp (Minimal.processLine line) = Some code ->
  consumed sp fp (pre ++ line :: post) = (pre ++ [line], Some code).
Proof.
  intros Hpre Hline.
  induction Hpre as [|l pre Hl _ IH]; cbn [consumed app].
  - now rewrite Hline.
  - unfold undecided in Hl. now rewrite Hl, IH.
Qed.

(** Either no line decides, or there is a first line that does. *)
Lemma consumed_cases (input : list string) :
  (Forall (undecided sp fp) input /\ consumed sp fp input = (input, None))
  \/ (exists pre line post code,
         input = pre ++ line :: post
         /\ Forall (undecided sp fp) pre
         /\ decision sp fp (Minimal.processLine line) = Some code
         /\ consumed sp fp input = (pre ++ [line], Some code)).
Proof.
  induction input as [|l input IH].
  - left. split; [constructor|reflexivity].
  - destruct (decision sp fp (Minimal.processLine l)) as [code|] eqn:Hl.
    + right. exists [], l, input, code.
      repeat split; [constructor|assumption|].
      cbn [consumed app]. now rewrite Hl.
    + destruct IH as [[Hall Hc]|[pre [line [post [code [-> [Hpre [Hd Hc]]]]]]]].
      * left. split; [now constructor|]. cbn [consumed]. now rewrite Hl, Hc.
      * right. exists (l :: pre), line, post, code.
        repeat split; [now constructor|assumption|].
        cbn [consumed app]. now rewrite Hl, Hc.
Qed.

Lemma extended_run_eq (input : Stream) (w : World Rx) :
  Extended.run quiet sp fp input w
  = let w' := after quiet sp fp (fst (consumed sp fp (lines input))) w in
    match snd (consumed sp fp (lines input)) with
    | Some code => (Exit code, w')
    | None =>
      match err input with
      | Some e =>
        (Exit 2,
         with_stderr (Text ("Error reading from stdin: " +++ e +++ nl)) w')
      | None =>
        (Exit 3,
         with_stderr (Text "EOF found but no matching lines were detected") w')
      end
    end.
Proof.
  unfold Extended.run. unfold bind at 1. rewrite scan_loop_eq. cbv zeta.
  destruct (snd (consumed sp fp (lines input))); [reflexivity|].
  destruct (err input); reflexivity.
Qed.

End Run.

Lemma minimal_run_eq {R : Regexp} (sp fp : list Rx) (input : Stream)
      (w : World Rx) :
  Minimal.run sp fp input w
  = let w' := after false sp fp (fst (consumed sp fp (lines input))) w in
    match snd (consumed sp fp (lines input)) with
    | Some code => (Exit code, w')
    | None =>
      match err input with
      | Some e =>
        (Exit 2,
         with_stderr (Text ("Error reading from stdin: " +++ e +++ nl)) w')
      | None => (Return tt, w')
      end
    end.
Proof.
  unfold Minimal.run. rewrite minimal_loop_body.
  unfold bind at 1. rewrite scan_loop_eq. cbv zeta.
  destruct (snd (consumed sp fp (lines input))); [reflexivity|].
  destruct (err input); reflexivity.
Qed.

(** ** The decision loop *)

Section Patterns.
Context {R : Regexp}.

Lemma never_matches_any (patterns : list Rx) (s : string) :
  never patterns s -> matches_any patterns s = false.
Proof.
  induction 1 as [|p ps Hp _ IH]; cbn; [reflexivity|].
  rewrite Hp. exact IH.
Qed.

Lemma never_upto (patterns : list Rx) (s : string) :
  never patterns s -> upto patterns s = patterns.
Proof.
  induction 1 as [|p ps Hp _ IH]; cbn; [reflexivity|].
  now rewrite Hp, IH.
Qed.

Lemma first_matches_any (pre post : list Rx) (p : Rx) (s : string) :
  MatchString p s = true -> matches_any (pre ++ p :: post) s = true.
Proof.
  intros Hp. unfold matches_any. rewrite existsb_app. cbn.
  rewrite Hp. now rewrite orb_true_r.
Qed.

Lemma first_upto (pre post : list Rx) (p : Rx) (s : string) :
  never pre s -> MatchString p s = true ->
  upto (pre ++ p :: post) s = pre ++ [p].
Proof.
  intros Hpre Hp. induction Hpre as [|q pre Hq _ IH]; cbn.
  - now rewrite Hp.
  - now rewrite Hq, IH.
Qed.

Lemma In_matches_any (patterns : list Rx) (p : Rx) (s : string) :
  In p patterns -> MatchString p s = true -> matches_any patterns s = true.
Proof.
  intros Hin Hp. unfold matches_any. apply existsb_exists. now exists p.
Qed.

(** C2. For a line whose normalised form is [s], in both variants:
    when [p] is the first success pattern that matches [s], the
    process exits with status 0 and the patterns evaluated are the
    success patterns up to [p], in order, and nothing after it; when no
    success pattern matches and [p] is the first failure pattern that
    matches, it exits with status 1 after evaluating every success
    pattern and the failure patterns up to [p]; when nothing matches,
    the loop goes on to the next line after evaluating both lists in
    order; hence a line matched by a success and by a failure pattern
    gives status 0. *)
Theorem decision_order (sp fp : list Rx) (line : string) (quiet : bool)
        (w : World Rx) :
  let s := Minimal.processLine line in
  let tried (ps : list Rx) := evaluated w ++ map (fun q => (q, s)) ps in
  let ext := Extended.loop_body quiet sp fp line w in
  let min := Minimal.loop_body sp fp line w in
  (forall pre p post,
      sp = pre ++ p :: post -> never pre s -> MatchString p s = true ->
      fst ext = Exit 0 /\ evaluated (snd ext) = tried (pre ++ [p])
      /\ fst min = Exit 0 /\ evaluated (snd min) = tried (pre ++ [p]))
  /\ (forall pre p post,
         never sp s ->
         fp = pre ++ p :: post -> never pre s -> MatchString p s = true ->
         fst ext = Exit 1 /\ evaluated (snd ext) = tried (sp ++ pre ++ [p])
         /\ fst min = Exit 1 /\ evaluated (snd min) = tried (sp ++ pre ++ [p]))
  /\ (never sp s -> never fp s ->
      fst ext = Return tt /\ evaluated (snd ext) = tried (sp ++ fp)
      /\ fst min = Return tt /\ evaluated (snd min) = tried (sp ++ fp))
  /\ (forall p q,
         In p sp -> MatchString p s = true ->
         In q fp -> MatchString q s = true ->
         fst ext = Exit 0 /\ fst min = Exit 0).
Proof.
  cbv zeta. rewrite minimal_loop_body, !loop_body_eq.
  cbn [fst snd evaluated]. unfold decision, calls.
  repeat split.
  - rewrite H. now rewrite first_matches_any.
  - rewrite H, first_matches_any, first_upto by assumption.
    now rewrite app_nil_r.
  - rewrite H. now rewrite first_matches_any.
  - rewrite H, first_matches_any, first_upto by assumption.
    now rewrite app_nil_r.
  - rewrite never_matches_any by assumption.
    rewrite H0. now rewrite first_matches_any.
  - rewrite never_matches_any, never_upto by assumption.
    rewrite H0. now rewrite first_upto.
  - rewrite never_matches_any by assumption.
    rewrite H0. now rewrite first_matches_any.
  - rewrite never_matches_any, never_upto by assumption.
    rewrite H0. now rewrite first_upto.
  - now rewrite !never_matches_any.
  - now rewrite never_matches_any, !never_upto.
  - now rewrite !never_matches_any.
  - now rewrite never_matches_any, !never_upto.
  - now rewrite (In_matches_any sp p).
  - now rewrite (In_matches_any sp p).
Qed.

End Patterns.

Lemma decision_order_witness :
  let sp := ["OK"; "SUCCESS"; "DONE"] in
  let fp := ["ERROR"; "FAILED"] in
  let run line :=
      Minimal.loop_body (R := Literal.engine) sp fp line World0 in
  (fst (run "BUILD SUCCESS") = Exit 0
   /\ evaluated (snd (run "BUILD SUCCESS"))
      = [("OK", "BUILD SUCCESS"); ("SUCCESS", "BUILD SUCCESS")])
  /\ (fst (run "BUILD FAILED") = Exit 1
      /\ evaluated (snd (run "BUILD FAILED"))
         = [("OK", "BUILD FAILED"); ("SUCCESS", "BUILD FAILED");
            ("DONE", "BUILD FAILED"); ("ERROR", "BUILD FAILED");
            ("FAILED", "BUILD FAILED")])
  /\ fst (run "BUILD IN PROGRESS") = Return tt
  /\ fst (run "SUCCESS, NOT FAILED") = Exit 0.
Proof.
  cbv zeta.
  pose proof (decision_order (R := Literal.engine)
                ["OK"; "SUCCESS"; "DONE"] ["ERROR"; "FAILED"]) as H.
  split; [|split; [|split]].
  - destruct (H "BUILD SUCCESS" false World0) as [H1 _].
    destruct (H1 ["OK"] "SUCCESS" ["DONE"]) as [_ [_ [Hs He]]].
    + reflexivity.
    + repeat constructor.
    + reflexivity.
    + split; [exact Hs|exact He].
  - destruct (H "BUILD FAILED" false World0) as [_ [H2 _]].
    destruct (H2 ["ERROR"] "FAILED" []) as [_ [_ [Hs He]]].
    + repeat constructor.
    + reflexivity.
    + repeat constructor.
    + reflexivity.
    + split; [exact Hs|exact He].
  - destruct (H "BUILD IN PROGRESS" false World0) as [_ [_ [H3 _]]].
    destruct H3 as [_ [_ [Hs _]]].
    + repeat constructor.
    + repeat constructor.
    + exact Hs.
  - destruct (H "SUCCESS, NOT FAILED" false World0) as [_ [_ [_ H4]]].
    destruct (H4 "SUCCESS" "FAILED") as [_ Hs].
    + cbn. auto.
    + reflexivity.
    + cbn. auto.
    + reflexivity.
    + exact Hs.
Defined.

(** ** The exit status of a run *)

Section Status.
Context {R : Regexp}.
Variables (sp fp : list Rx).

Lemma consumed_failure (pre post : list string) (line : string) :
  Forall (no_success sp) (pre ++ [line]) ->
  matches_any fp (Minimal.processLine line) = true ->
  snd (consumed sp fp (pre ++ line :: post)) = Some 1.
Proof.
  intros Hns Hf. induction pre as [|l pre IH]; cbn [app consumed].
  - inversion Hns as [|? ? Hl _]; subst. unfold no_success in Hl.
    unfold decision. now rewrite Hl, Hf.
  - inversion Hns as [|? ? Hl Hrest]; subst. unfold no_success in Hl.
    unfold decision at 1. rewrite Hl.
    destruct (matches_any fp (Minimal.processLine l)); [reflexivity|].
    specialize (IH Hrest).
    destruct (consumed sp fp (pre ++ line :: post)). exact IH.
Qed.

(** C3. The status of a run, in both variants, from the start of the
    scanner loop: 0 when the loop reaches a line that a success
    pattern matches; 1 when a failure pattern matches a line and no
    success pattern has matched that line or an earlier one; 2 when no
    line matches and the input ends with a read error; and when no
    line matches and the input ends, 3 in the extended variant and 0
    in the minimal one, whose [main] returns. *)
Theorem exit_status (input : Stream) (quiet : bool) :
  let min := fst (exec (Minimal.run sp fp input)) in
  let ext := fst (exec (Extended.run quiet sp fp input)) in
  (forall pre line post,
      lines input = pre ++ line :: post ->
      Forall (undecided sp fp) pre ->
      matches_any sp (Minimal.processLine line) = true ->
      min = 0 /\ ext = 0)
  /\ (forall pre line post,
         lines input = pre ++ line :: post ->
         Forall (no_success sp) (pre ++ [line]) ->
         matches_any fp (Minimal.processLine line) = true ->
         min = 1 /\ ext = 1)
  /\ (forall e,
         Forall (undecided sp fp) (lines input) -> err input = Some e ->
         min = 2 /\ ext = 2)
  /\ (Forall (undecided sp fp) (lines input) -> err input = None ->
      min = 0 /\ ext = 3).
Proof.
  cbv zeta. unfold exec.
  rewrite minimal_run_eq, extended_run_eq. cbv zeta.
  split; [|split; [|split]].
  - intros pre line post Hin Hpre Hs.
    rewrite Hin.
    rewrite (consumed_decisive sp fp pre post line 0); [now split|assumption|].
    unfold decision. now rewrite Hs.
  - intros pre line post Hin Hns Hf.
    rewrite Hin.
    pose proof (consumed_failure pre post line Hns Hf) as Hc.
    rewrite Hc. now split.
  - intros e Hall He.
    rewrite consumed_undecided, He by assumption. now split.
  - intros Hall He.
    rewrite consumed_undecided, He by assumption. now split.
Qed.

End Status.

Lemma exit_status_witness :
  let sp := ["SUCCESS"] in
  let fp := ["FAILED"] in
  let min input := fst (exec (Minimal.run (R := Literal.engine) sp fp input)) in
  let ext input :=
      fst (exec (Extended.run (R := Literal.engine) true sp fp input)) in
  let ok := mkStream ["BUILD IN PROGRESS"; "BUILD SUCCESS"; "BUILD FAILED"] None in
  let ko := mkStream ["BUILD IN PROGRESS"; "BUILD FAILED"; "BUILD SUCCESS"] None in
  let broken := mkStream ["BUILD IN PROGRESS"] (Some "read error") in
  let silent := mkStream ["BUILD IN PROGRESS"] None in
  (min ok = 0 /\ ext ok = 0) /\ (min ko = 1 /\ ext ko = 1)
  /\ (min broken = 2 /\ ext broken = 2) /\ (min silent = 0 /\ ext silent = 3).
Proof.
  cbv zeta.
  pose proof (exit_status (R := Literal.engine) ["SUCCESS"] ["FAILED"]) as H.
  cbv zeta in H.
  split; [|split; [|split]].
  - destruct (H (mkStream ["BUILD IN PROGRESS"; "BUILD SUCCESS"; "BUILD FAILED"] None) true)
      as [H1 _].
    apply (H1 ["BUILD IN PROGRESS"] "BUILD SUCCESS" ["BUILD FAILED"]).
    + reflexivity.
    + repeat constructor.
    + reflexivity.
  - destruct (H (mkStream ["BUILD IN PROGRESS"; "BUILD FAILED"; "BUILD SUCCESS"] None) true)
      as [_ [H2 _]].
    apply (H2 ["BUILD IN PROGRESS"] "BUILD FAILED" ["BUILD SUCCESS"]).
    + reflexivity.
    + repeat constructor.
    + reflexivity.
  - destruct (H (mkStream ["BUILD IN PROGRESS"] (Some "read error")) true)
      as [_ [_ [H3 _]]].
    apply (H3 "read error").
    + repeat constructor.
    + reflexivity.
  - destruct (H (mkStream ["BUILD IN PROGRESS"] None) true) as [_ [_ [_ H4]]].
    apply H4.
    + repeat constructor.
    + reflexivity.
Defined.

(** ** The two variants against each other *)

Section Variants.
Context {R : Regexp}.
Variables (sp fp : list Rx).

(** C8. The two variants normalise a line with the same function and
    decide it with the same body.  On every input and with the same
    pattern lists, when some line decides, both stop on that line with
    the same status, whatever the quiet flag; and the outcome of the
    extended variant without the quiet flag (status, output, error
    output, calls made and lines read) differs from the outcome of the
    minimal variant only when the input ends with no line matched. *)
Theorem variants_agree (input : Stream) (quiet : bool) :
  let min := Minimal.run sp fp input World0 in
  let ext := Extended.run quiet sp fp input World0 in
  (forall line, Extended.processLine line = Minimal.processLine line)
  /\ (forall line w,
         Extended.loop_body false sp fp line w
         = Minimal.loop_body sp fp line w)
  /\ (forall pre line post code,
         lines input = pre ++ line :: post ->
         Forall (undecided sp fp) pre ->
         decision sp fp (Minimal.processLine line) = Some code ->
         fst min = Exit code /\ fst ext = Exit code
         /\ scanned (snd min) = S (List.length pre)
         /\ scanned (snd ext) = S (List.length pre))
  /\ (Extended.run false sp fp input World0 <> min ->
      Forall (undecided sp fp) (lines input) /\ err input = None).
Proof.
  cbv zeta. rewrite minimal_run_eq, !extended_run_eq. cbv zeta.
  split; [reflexivity|]. split; [reflexivity|]. split.
  - intros pre line post code Hin Hpre Hd.
    rewrite Hin, (consumed_decisive sp fp pre post line code) by assumption.
    cbn [fst snd after scanned Nat.add World0].
    rewrite length_app. cbn [List.length]. repeat split; lia.
  - intros Hdiff.
    destruct (consumed_cases sp fp (lines input))
      as [[Hall Hc]|[pre [line [post [code [_ [_ [_ Hc]]]]]]]];
      rewrite Hc in Hdiff; cbn [fst snd] in Hdiff.
    + split; [assumption|].
      destruct (err input); [congruence|reflexivity].
    + congruence.
Qed.

End Variants.

Lemma variants_agree_witness :
  let sp := ["SUCCESS"] in
  let fp := ["FAILED"] in
  let ko := mkStream ["BUILD IN PROGRESS"; "BUILD FAILED"; "BUILD SUCCESS"] None in
  let silent := mkStream ["BUILD IN PROGRESS"] None in
  (fst (Minimal.run (R := Literal.engine) sp fp ko World0) = Exit 1
   /\ fst (Extended.run (R := Literal.engine) true sp fp ko World0) = Exit 1
   /\ scanned (snd (Minimal.run (R := Literal.engine) sp fp ko World0)) = 2%nat
   /\ scanned (snd (Extended.run (R := Literal.engine) true sp fp ko World0)) = 2%nat)
  /\ (Forall (undecided (R := Literal.engine) sp fp) (lines silent)
      /\ err silent = None).
Proof.
  cbv zeta.
  pose proof (variants_agree (R := Literal.engine) ["SUCCESS"] ["FAILED"]) as H.
  cbv zeta in H. split.
  - destruct (H (mkStream ["BUILD IN PROGRESS"; "BUILD FAILED"; "BUILD SUCCESS"] None) true)
      as [_ [_ [H3 _]]].
    apply (H3 ["BUILD IN PROGRESS"] "BUILD FAILED" ["BUILD SUCCESS"] 1).
    + reflexivity.
    + repeat constructor.
    + reflexivity.
  - destruct (H (mkStream ["BUILD IN PROGRESS"] None) false) as [_ [_ [_ H4]]].
    apply H4. vm_compute. discriminate.
Defined.

(** ** The quiet flag *)

Section Quiet.
Context {R : Regexp}.

Lemma bind_eq {A B} (m : M Rx A) (k : A -> M Rx B) (w : World Rx) :
  bind m k w
  = match m w with
    | (Return a, w') => k a w'
    | (Exit code, w') => (Exit code, w')
    end.
Proof. reflexivity. Qed.

Lemma bind_agree {A} (m : M Rx A) (k1 k2 : A -> M Rx unit) (w : World Rx) :
  (forall a w', agree (k1 a w') (k2 a w')) ->
  agree (bind m k1 w) (bind m k2 w).
Proof.
  intros H. unfold bind. destruct (m w) as [[a|c] w'].
  - apply H.
  - unfold agree. auto.
Qed.

Lemma run_quiet (q1 q2 : bool) (sp fp : list Rx) (input : Stream)
      (w : World Rx) :
  agree (Extended.run q1 sp fp input w) (Extended.run q2 sp fp input w).
Proof.
  rewrite !extended_run_eq. cbv zeta. unfold agree.
  destruct (snd (consumed sp fp (lines input))) as [code|];
    [|destruct (err input)];
    cbn [fst snd after with_stderr stdout stderr evaluated scanned];
    repeat split; reflexivity.
Qed.

(** Parsing a command line and parsing it without its [-quiet] flags
    end alike: with the same error, or with flag values that differ at
    most in the quiet flag. *)
Lemma parse_but_quiet (flags : list Extended.flagArg) :
  forall (f g : Extended.Flags) (w : World Rx),
    same_but_quiet f g ->
    match Extended.flag_Parse flags f w,
          Extended.flag_Parse (but_quiet flags) g w with
    | (Return f', w1), (Return g', w2) => same_but_quiet f' g' /\ w1 = w2
    | (Exit c1, w1), (Exit c2, w2) => c1 = c2 /\ w1 = w2
    | _, _ => False
    end.
Proof.
  unfold same_but_quiet.
  induction flags as [|a flags IH]; intros f g w [Hs [Hf Hh]].
  - cbn. auto.
  - destruct a as [v|v|q|h];
      cbn [but_quiet filter is_quiet negb Extended.flag_Parse];
      fold (but_quiet flags).
    + rewrite <- Hs.
      destruct (Extended.RegexSlice_Set (Extended.successPatterns f) v)
        as [r [e|]].
      * destruct (failf (A := Extended.Flags)
                        (invalid_value v "success" e) Extended.printHelp w)
          as [[x|c] w']; auto.
      * apply IH. cbn. auto.
    + rewrite <- Hf.
      destruct (Extended.RegexSlice_Set (Extended.failurePatterns f) v)
        as [r [e|]].
      * destruct (failf (A := Extended.Flags)
                        (invalid_value v "failure" e) Extended.printHelp w)
          as [[x|c] w']; auto.
      * apply IH. cbn. auto.
    + apply IH. cbn. auto.
    + apply IH. cbn. auto.
Qed.

(** C9. In the extended variant the quiet flag changes neither the
    status, nor the line on which the run stops, nor the calls of
    [MatchString], nor the error output: with the flag nothing is
    written to the standard output, and without it every line read is
    written there in its normalised form, the line that decides
    included.  The same holds from the command line: two command lines
    that differ only in their [-quiet] flags end with the same status
    after the same number of lines. *)
Theorem quiet_only_echo :
  (forall (sp fp : list Rx) (input : Stream),
      let loud := Extended.run false sp fp input World0 in
      let hush := Extended.run true sp fp input World0 in
      agree loud hush
      /\ stdout (snd hush) = []
      /\ stdout (snd loud)
         = map Extended.processLine
               (firstn (scanned (snd loud)) (lines input)))
  /\ (forall flags1 flags2 args stdin os_Open,
         but_quiet flags1 = but_quiet flags2 ->
         agree (Extended.main flags1 args stdin os_Open World0)
               (Extended.main flags2 args stdin os_Open World0)).
Proof.
  split.
  - intros sp fp input. cbv zeta.
    split; [apply run_quiet|].
    rewrite !extended_run_eq. cbv zeta.
    assert (Hread : forall l, fst (consumed sp fp l)
                              = firstn (List.length (fst (consumed sp fp l))) l).
    { induction l as [|x l IH]; cbn [consumed]; [reflexivity|].
      destruct (decision sp fp (Minimal.processLine x)).
      - reflexivity.
      - destruct (consumed sp fp l) as [read d]. cbn [fst] in *.
        cbn [List.length firstn]. now rewrite <- IH. }
    specialize (Hread (lines input)).
    destruct (consumed sp fp (lines input)) as [read d]. cbn [fst snd] in *.
    destruct d as [code|]; [|destruct (err input)];
      cbn [fst snd after with_stderr stdout stderr evaluated scanned World0
           echo app Nat.add];
      rewrite <- Hread; repeat split; reflexivity.
  - intros flags1 flags2 args stdin os_Open Hflags.
    set (f0 := Extended.mkFlags [] [] false false).
    assert (H0 : same_but_quiet f0 f0) by (unfold same_but_quiet; auto).
    pose proof (parse_but_quiet flags1 f0 f0 World0 H0) as H1.
    pose proof (parse_but_quiet flags2 f0 f0 World0 H0) as H2.
    rewrite <- Hflags in H2.
    unfold Extended.main. fold f0.
    rewrite (bind_eq (Extended.flag_Parse flags1 f0)),
            (bind_eq (Extended.flag_Parse flags2 f0)).
    destruct (Extended.flag_Parse flags1 f0 World0) as [[f1|c1] w1];
      destruct (Extended.flag_Parse flags2 f0 World0) as [[f2|c2] w2];
      destruct (Extended.flag_Parse (but_quiet flags1) f0 World0)
        as [[g|c] w']; try contradiction.
    + destruct H1 as [[Hs1 [Hf1 Hh1]] ->]. destruct H2 as [[Hs2 [Hf2 Hh2]] ->].
      rewrite Hs1, Hs2, Hf1, Hf2, Hh1, Hh2.
      apply bind_agree. intros _ w''.
      apply bind_agree. intros input w3.
      apply run_quiet.
    + destruct H1 as [-> ->]. destruct H2 as [-> ->]. unfold agree. auto.
Qed.

End Quiet.

Lemma quiet_only_echo_witness :
  let stdin := mkStream ["BUILD IN PROGRESS"; "BUILD SUCCESS"; "BUILD FAILED"] None in
  let os_Open := fun _ : string => inr "no such file or directory" in
  agree (Extended.main (R := Literal.engine)
           [Extended.success "SUCCESS"; Extended.quiet true] [] stdin os_Open
           World0)
        (Extended.main (R := Literal.engine)
           [Extended.quiet false; Extended.success "SUCCESS"] [] stdin os_Open
           World0).
Proof.
  cbv zeta. apply (proj2 (quiet_only_echo (R := Literal.engine))).
  reflexivity.
Defined.

(** ** Configuration *)

Section Configuration.
Context {R : Regexp}.

Lemma minimal_Set_error (r : list Rx) (value e : string) :
  Compile value = inr e ->
  Minimal.RegexSlice_Set r value = (r, Some (pattern_error value e)).
Proof. intros H. unfold Minimal.RegexSlice_Set. now rewrite H. Qed.

Lemma minimal_Set_ok (r : list Rx) (value : string) (re : Rx) :
  Compile value = inl re ->
  Minimal.RegexSlice_Set r value = (r ++ [re], None).
Proof. intros H. unfold Minimal.RegexSlice_Set. now rewrite H. Qed.

Lemma extended_Set_eq (r : list Rx) (value : string) :
  Extended.RegexSlice_Set r value = Minimal.RegexSlice_Set r value.
Proof. reflexivity. Qed.

Lemma print_all (l : list string) (w : World Rx) :
  for_range l (fun s => Fprint_stderr (Text s)) w
  = (Return tt,
     mkWorld (stdout w) (stderr w ++ map Text l) (evaluated w) (scanned w)).
Proof.
  revert w. induction l as [|s l IH]; intros [out errs ev n].
  - cbn [for_range map]. unfold ret.
    cbn [stdout stderr evaluated scanned]. now rewrite app_nil_r.
  - cbn [for_range map]. unfold bind at 1. unfold Fprint_stderr at 1.
    cbn [stdout stderr evaluated scanned]. rewrite IH.
    cbn [stdout stderr evaluated scanned]. now rewrite <- app_assoc.
Qed.

Lemma printHelp_eq {A} (w : World Rx) :
  Extended.printHelp (A := A) w
  = (Exit 99,
     mkWorld (stdout w) (stderr w ++ map Text Extended.helpText)
             (evaluated w) (scanned w)).
Proof.
  unfold Extended.printHelp. unfold bind. now rewrite print_all.
Qed.

Lemma minimal_parse_fail (args : list Minimal.flagArg) :
  (exists a e, In a args /\ Compile (snd (minimal_flag a)) = inr e) ->
  forall sp fp w,
  exists a e,
    In a args /\ Compile (snd (minimal_flag a)) = inr e
    /\ Minimal.flag_Parse args sp fp w
       = (Exit 2,
          mkWorld (stdout w)
                  (stderr w
                   ++ [flag_error (fst (minimal_flag a)) (snd (minimal_flag a)) e;
                       PrintDefaults])
                  (evaluated w) (scanned w)).
Proof.
  induction args as [|a args IH]; intros [b [e [Hin Hb]]] sp fp w.
  - destruct Hin.
  - destruct (Compile (snd (minimal_flag a))) as [re|e'] eqn:Ha.
    + assert (Htail : exists a e, In a args
                                  /\ Compile (snd (minimal_flag a)) = inr e).
      { destruct Hin as [->|Hin]; [congruence|]. now exists b, e. }
      destruct a as [value|value]; cbn [minimal_flag snd] in Ha;
        cbn [Minimal.flag_Parse]; rewrite (minimal_Set_ok _ _ _ Ha).
      * destruct (IH Htail (sp ++ [re]) fp w) as [a' [e'' [H1 [H2 H3]]]].
        exists a', e''. repeat split; [now right|assumption|assumption].
      * destruct (IH Htail sp (fp ++ [re]) w) as [a' [e'' [H1 [H2 H3]]]].
        exists a', e''. repeat split; [now right|assumption|assumption].
    + exists a, e'. repeat split; [now left|assumption|].
      destruct a as [value|value]; cbn [minimal_flag fst snd] in *;
        cbn [Minimal.flag_Parse]; rewrite (minimal_Set_error _ _ _ Ha);
        destruct w as [out errs ev n]; unfold failf, bind, Fprint_stderr,
          os_Exit, flag_error;
        cbn [stdout stderr evaluated scanned];
        now rewrite <- app_assoc.
Qed.

End Configuration.

Section Startup.
Context {R : Regexp}.

Lemma extended_parse_fail (flags : list Extended.flagArg) :
  (exists a name value e, In a flags /\ refused a name value e) ->
  forall f w,
  exists a name value e,
    In a flags /\ refused a name value e
    /\ Extended.flag_Parse flags f w
       = (Exit 99,
          mkWorld (stdout w)
                  (stderr w ++ flag_error name value e
                            :: map Text Extended.helpText)
                  (evaluated w) (scanned w)).
Proof.
  unfold refused.
  induction flags as [|a flags IH];
    intros [b [name [value [e [Hin [Hb He]]]]]] f w.
  - destruct Hin.
  - assert (Hfail : forall name' v e',
               Compile v = inr e' ->
               failf (A := Extended.Flags)
                     (invalid_value v name' (pattern_error v e'))
                     Extended.printHelp w
               = (Exit 99,
                  mkWorld (stdout w)
                          (stderr w ++ flag_error name' v e'
                                    :: map Text Extended.helpText)
                          (evaluated w) (scanned w))).
    { intros name' v e' _. unfold failf. unfold bind at 1.
      unfold Fprint_stderr at 1. unfold bind at 1.
      rewrite printHelp_eq. cbn [stdout stderr evaluated scanned].
      unfold flag_error. now rewrite <- app_assoc. }
    assert (Htail : a <> b ->
                    exists a name value e,
                      In a flags
                      /\ extended_flag a = Some (name, value)
                      /\ Compile value = inr e).
    { intros Hab. destruct Hin as [Hin|Hin]; [congruence|].
      now exists b, name, value, e. }
    destruct a as [v|v|q|h]; cbn [Extended.flag_Parse].
    + change (@Extended.RegexSlice_Set R) with (@Minimal.RegexSlice_Set R).
      destruct (Compile v) as [re|e'] eqn:Hv.
      * rewrite (minimal_Set_ok _ _ _ Hv).
        destruct (IH (Htail ltac:(intros <-; cbn in Hb; congruence))
                     (Extended.mkFlags (Extended.successPatterns f ++ [re])
                                       (Extended.failurePatterns f)
                                       (Extended.quietFlag f)
                                       (Extended.showHelp f)) w)
          as [a' [n' [v' [e'' [H1 [H2 H3]]]]]].
        exists a', n', v', e''. repeat split; [now right|apply H2|apply H2|assumption].
      * rewrite (minimal_Set_error _ _ _ Hv).
        exists (Extended.success v), "success", v, e'.
        repeat split; [now left|assumption|]. now apply Hfail.
    + change (@Extended.RegexSlice_Set R) with (@Minimal.RegexSlice_Set R).
      destruct (Compile v) as [re|e'] eqn:Hv.
      * rewrite (minimal_Set_ok _ _ _ Hv).
        destruct (IH (Htail ltac:(intros <-; cbn in Hb; congruence))
                     (Extended.mkFlags (Extended.successPatterns f)
                                       (Extended.failurePatterns f ++ [re])
                                       (Extended.quietFlag f)
                                       (Extended.showHelp f)) w)
          as [a' [n' [v' [e'' [H1 [H2 H3]]]]]].
        exists a', n', v', e''. repeat split; [now right|apply H2|apply H2|assumption].
      * rewrite (minimal_Set_error _ _ _ Hv).
        exists (Extended.failure v), "failure", v, e'.
        repeat split; [now left|assumption|]. now apply Hfail.
    + destruct (IH (Htail ltac:(intros <-; cbn in Hb; congruence))
                   (Extended.mkFlags (Extended.successPatterns f)
                                     (Extended.failurePatterns f) q
                                     (Extended.showHelp f)) w)
        as [a' [n' [v' [e'' [H1 [H2 H3]]]]]].
      exists a', n', v', e''. repeat split; [now right|apply H2|apply H2|assumption].
    + destruct (IH (Htail ltac:(intros <-; cbn in Hb; congruence))
                   (Extended.mkFlags (Extended.successPatterns f)
                                     (Extended.failurePatterns f)
                                     (Extended.quietFlag f) h) w)
        as [a' [n' [v' [e'' [H1 [H2 H3]]]]]].
      exists a', n', v', e''. repeat split; [now right|apply H2|apply H2|assumption].
Qed.

(** C5. When [regexp.Compile] refuses a pattern with the error [e],
    [Set] returns the error that quotes the pattern and gives [e], and
    leaves the pattern list as it was.  A command line that carries
    such a pattern for [-success] or [-failure] ends the process
    inside [flag.Parse]: the error output starts with that error for a
    refused pattern of the command line and goes on with the usage,
    the status is 2 in the minimal variant and 99 in the extended one,
    whose usage is [printHelp]; no line is read, nothing is written to
    the standard output and no pattern is evaluated. *)
Theorem invalid_pattern_stops (value e : string) :
  Compile value = inr e ->
  (forall r,
      Minimal.RegexSlice_Set r value = (r, Some (pattern_error value e))
      /\ Extended.RegexSlice_Set r value = (r, Some (pattern_error value e)))
  /\ (forall args stdin,
         In (Minimal.success value) args \/ In (Minimal.failure value) args ->
         exists a e',
           In a args /\ Compile (snd (minimal_flag a)) = inr e'
           /\ exec (Minimal.main args stdin)
              = (2, mkWorld []
                            [flag_error (fst (minimal_flag a))
                                        (snd (minimal_flag a)) e';
                             PrintDefaults]
                            [] 0))
  /\ (forall flags args stdin os_Open,
         In (Extended.success value) flags
         \/ In (Extended.failure value) flags ->
         exists a name value' e',
           In a flags /\ refused a name value' e'
           /\ exec (Extended.main flags args stdin os_Open)
              = (99, mkWorld []
                             (flag_error name value' e'
                              :: map Text Extended.helpText)
                             [] 0)).
Proof.
  intros Hc. split; [|split].
  - intros r. change (@Extended.RegexSlice_Set R) with (@Minimal.RegexSlice_Set R).
    split; now apply minimal_Set_error.
  - intros args stdin Hin.
    assert (Hex : exists a e, In a args
                              /\ Compile (snd (minimal_flag a)) = inr e).
    { destruct Hin as [Hin|Hin];
        [exists (Minimal.success value), e
        |exists (Minimal.failure value), e]; now split. }
    destruct (minimal_parse_fail args Hex [] [] World0)
      as [a [e' [H1 [H2 H3]]]].
    exists a, e'. repeat split; [assumption|assumption|].
    unfold exec, Minimal.main, bind. rewrite H3. reflexivity.
  - intros flags args stdin os_Open Hin.
    assert (Hex : exists a name value e,
               In a flags /\ refused a name value e).
    { destruct Hin as [Hin|Hin];
        [exists (Extended.success value), "success", value, e
        |exists (Extended.failure value), "failure", value, e];
        split; [assumption|now split|assumption|now split]. }
    destruct (extended_parse_fail flags Hex
                (Extended.mkFlags [] [] false false) World0)
      as [a [name [v' [e' [H1 [H2 H3]]]]]].
    exists a, name, v', e'. repeat split; [assumption|apply H2|apply H2|].
    unfold exec, Extended.main. unfold bind at 1. rewrite H3. reflexivity.
Qed.

End Startup.

Lemma invalid_pattern_stops_witness :
  let stdin := mkStream ["BUILD SUCCESS"] None in
  let bad := "[abc" in
  let e := "error parsing regexp: not a literal: `[abc`" in
  Minimal.RegexSlice_Set (R := Literal.engine) ["SUCCESS"] bad
  = (["SUCCESS"], Some ("invalid regex pattern '[abc': " +++ e))
  /\ (let out := exec (Minimal.main (R := Literal.engine)
                         [Minimal.success "SUCCESS"; Minimal.failure bad] stdin) in
      fst out = 2 /\ scanned (snd out) = 0%nat /\ stdout (snd out) = [])
  /\ (let out := exec (Extended.main (R := Literal.engine)
                         [Extended.quiet true; Extended.success bad] [] stdin
                         (fun _ => inr "no such file")) in
      fst out = 99 /\ scanned (snd out) = 0%nat /\ stdout (snd out) = []).
Proof.
  cbv zeta.
  destruct (invalid_pattern_stops (R := Literal.engine) "[abc"
              "error parsing regexp: not a literal: `[abc`" eq_refl)
    as [H1 [H2 H3]].
  split; [|split].
  - apply (H1 ["SUCCESS"]).
  - destruct (H2 [Minimal.success "SUCCESS"; Minimal.failure "[abc"]
                 (mkStream ["BUILD SUCCESS"] None))
      as [a [e' [_ [_ Hexec]]]].
    + right. cbn. auto.
    + rewrite Hexec. cbn. auto.
  - destruct (H3 [Extended.quiet true; Extended.success "[abc"] []
                 (mkStream ["BUILD SUCCESS"] None)
                 (fun _ => inr "no such file"))
      as [a [name [v [e' [_ [_ Hexec]]]]]].
    + left. cbn. auto.
    + rewrite Hexec. cbn. auto.
Defined.

(** ** The empty pattern *)

Section EmptyPattern.
Context {R : Regexp}.

Lemma minimal_parse_ok (args : list Minimal.flagArg) :
  Forall compiles args ->
  forall sp fp w,
  exists sp' fp',
    Minimal.flag_Parse args sp fp w = (Return (sp ++ sp', fp ++ fp'), w)
    /\ (forall value re,
           In (Minimal.success value) args -> Compile value = inl re ->
           In re sp').
Proof.
  induction 1 as [|a args [re Ha] _ IH]; intros sp fp w.
  - exists [], []. rewrite !app_nil_r. split; [reflexivity|].
    intros value re [].
  - destruct a as [v|v]; cbn [minimal_flag snd] in Ha;
      cbn [Minimal.flag_Parse]; rewrite (minimal_Set_ok _ _ _ Ha).
    + destruct (IH (sp ++ [re]) fp w) as [sp' [fp' [Hp Hin]]].
      exists (re :: sp'), fp'. split.
      * rewrite Hp. now rewrite <- app_assoc.
      * intros value re' [Heq|Htl] Hc.
        -- injection Heq as <-. left. congruence.
        -- right. now apply (Hin value).
    + destruct (IH sp (fp ++ [re]) w) as [sp' [fp' [Hp Hin]]].
      exists sp', (re :: fp'). split.
      * rewrite Hp. now rewrite <- app_assoc.
      * intros value re' [Heq|Htl] Hc; [discriminate|].
        now apply (Hin value).
Qed.

(** With patterns that all compile, [main] is the scanner loop over the
    compiled patterns. *)
Lemma minimal_main_run (args : list Minimal.flagArg) (stdin : Stream) :
  Forall compiles args ->
  exists sp fp,
    Minimal.main args stdin World0 = Minimal.run sp fp stdin World0
    /\ (forall value re,
           In (Minimal.success value) args -> Compile value = inl re ->
           In re sp).
Proof.
  intros Hall.
  destruct (minimal_parse_ok args Hall [] [] World0) as [sp [fp [Hp Hsp]]].
  cbn [app] in Hp. exists sp, fp. split; [|exact Hsp].
  unfold Minimal.main. unfold bind at 1. now rewrite Hp.
Qed.

(** A success pattern that compiles from the value [value] and matches
    every string ends the run on the first line. *)
Lemma matching_success_pattern (value : string) (re : Rx) :
  Compile value = inl re ->
  (forall s, MatchString re s = true) ->
  forall args line rest e,
    Forall compiles args -> In (Minimal.success value) args ->
    let out := exec (Minimal.main args (mkStream (line :: rest) e)) in
    fst out = 0 /\ scanned (snd out) = 1%nat
    /\ stdout (snd out) = [Minimal.processLine line].
Proof.
  intros Hc Hm args line rest e Hall Hin.
  destruct (minimal_main_run args (mkStream (line :: rest) e) Hall)
    as [sp [fp [Hmain Hsp]]].
  assert (Hd : decision sp fp (Minimal.processLine line) = Some 0).
  { unfold decision.
    rewrite (In_matches_any sp re); [reflexivity| |apply Hm].
    now apply (Hsp value). }
  assert (Hexec : exec (Minimal.main args (mkStream (line :: rest) e))
                  = (0, after false sp fp [line] World0)).
  { unfold exec. rewrite Hmain, minimal_run_eq. cbv zeta.
    cbn [lines consumed]. rewrite Hd. reflexivity. }
  cbv zeta. rewrite Hexec.
  cbn [fst snd after scanned stdout echo map app World0
       List.length Nat.add].
  auto.
Qed.

End EmptyPattern.

(** ** Package regexp on the empty pattern *)

Lemma hasPrefix_nil (s : list rune) : regexp.hasPrefix s [] = true.
Proof. destruct s; reflexivity. Qed.

Lemma contains_nil (s : list rune) : regexp.contains s [] = true.
Proof. destruct s; reflexivity. Qed.

(** C10. Whatever package [regexp] does on the patterns that are not
    literal: [regexp.Compile] accepts the empty string, so that [Set]
    appends the expression it gives and returns no error; this
    expression matches every string, hence every normalised line, the
    empty one included; and with [-success] given the empty pattern on a
    command line whose patterns all compile, the program exits with
    status 0 on the first line of any input that has one, after reading
    and writing that line only. *)
Theorem empty_pattern (rest : Regexp) :
  let R := regexp.package rest in
  let re : @Rx R := regexp.literal rest "" in
  @Compile R "" = inl re
  /\ (forall r, Minimal.RegexSlice_Set (R := R) r "" = (r ++ [re], None))
  /\ (forall s, @MatchString R re s = true)
  /\ (forall line, @MatchString R re (Minimal.processLine line) = true)
  /\ @MatchString R re (Minimal.processLine "") = true
  /\ (forall args line following e,
         Forall (compiles (R := R)) args ->
         In (Minimal.success "") args ->
         let out := exec (Minimal.main (R := R) args
                            (mkStream (line :: following) e)) in
         fst out = 0 /\ scanned (snd out) = 1%nat
         /\ stdout (snd out) = [Minimal.processLine line]).
Proof.
  cbv zeta.
  assert (Hc : @Compile (regexp.package rest) ""
               = inl (regexp.literal rest "")) by reflexivity.
  assert (Hm : forall s,
             @MatchString (regexp.package rest) (regexp.literal rest "") s
             = true).
  { intros s. cbn. apply contains_nil. }
  split; [exact Hc|]. split; [|split; [exact Hm|split; [|split]]].
  - intros r. now apply (minimal_Set_ok (R := regexp.package rest)).
  - intros line. apply Hm.
  - apply Hm.
  - intros args line following e Hall Hin.
    exact (matching_success_pattern (R := regexp.package rest) ""
             (regexp.literal rest "") Hc Hm args line following e Hall Hin).
Qed.

Lemma empty_pattern_witness :
  let R := regexp.package Literal.engine in
  let out := exec (Minimal.main (R := R)
                     [Minimal.failure "FAILED"; Minimal.success ""]
                     (mkStream [""; "BUILD SUCCESS"] None)) in
  fst out = 0 /\ scanned (snd out) = 1%nat /\ stdout (snd out) = [""].
Proof.
  cbv zeta.
  destruct (empty_pattern Literal.engine) as [_ [_ [_ [_ [_ H]]]]].
  apply (H [Minimal.failure "FAILED"; Minimal.success ""]
           "" ["BUILD SUCCESS"] None).
  - repeat constructor; eexists; reflexivity.
  - cbn. auto.
Defined.

(** * Further properties *)

(** ** Strings and their runes *)

Lemma list_ascii_of_string_app (a b : string) :
  list_ascii_of_string (a +++ b)
  = list_ascii_of_string a ++ list_ascii_of_string b.
Proof. induction a as [|c a IH]; cbn; [reflexivity|now rewrite IH]. Qed.

Lemma string_of_list_ascii_app (l1 l2 : list ascii) :
  string_of_list_ascii (l1 ++ l2)
  = string_of_list_ascii l1 +++ string_of_list_ascii l2.
Proof. induction l1 as [|c l1 IH]; cbn; [reflexivity|now rewrite IH]. Qed.

Lemma bytes_of_string_app (a b : string) :
  bytes_of_string (a +++ b) = bytes_of_string a ++ bytes_of_string b.
Proof.
  unfold bytes_of_string. now rewrite list_ascii_of_string_app, map_app.
Qed.

Lemma string_of_runes_app (u v : list rune) :
  string_of_runes (u ++ v) = string_of_runes u +++ string_of_runes v.
Proof.
  unfold string_of_runes, string_of_bytes.
  now rewrite flat_map_app, map_app, string_of_list_ascii_app.
Qed.

Lemma range_bytes_encode_app (rs : list rune) (rest : list Z) (n : nat) :
  valid_runes rs ->
  (List.length (flat_map utf8.encoderune rs ++ rest) <= n)%nat ->
  range_bytes n (flat_map utf8.encoderune rs ++ rest)
  = rs ++ range_bytes (List.length rest) rest.
Proof.
  intros Hrs. revert n.
  induction Hrs as [|r rs Hr _ IH]; intros n Hn.
  - cbn [flat_map app] in *. now apply range_bytes_fuel.
  - cbn [flat_map] in *. rewrite <- app_assoc in *.
    rewrite length_app in Hn.
    pose proof (encoderune_nonempty r).
    destruct n as [|n]; [lia|].
    rewrite range_bytes_encoderune by assumption.
    cbn [app]. f_equal. apply IH. lia.
Qed.

(** The runes of a well-formed string followed by any string. *)
Lemma range_string_app (a b : string) :
  well_formed a -> range_string (a +++ b) = range_string a ++ range_string b.
Proof.
  intros [rs [Hv ->]].
  rewrite range_string_of_runes by assumption.
  unfold range_string at 1. rewrite bytes_of_string_app.
  unfold string_of_runes at 1 2.
  rewrite bytes_of_string_of_bytes by now apply encode_is_byte.
  now apply range_bytes_encode_app.
Qed.

Lemma range_backspaces (n : nat) : range_string (backspaces n) = repeat 8 n.
Proof.
  induction n as [|n IH]; [reflexivity|].
  change (backspaces (S n)) with (string_of_runes [8] +++ backspaces n).
  rewrite range_string_app.
  - rewrite IH. reflexivity.
  - exists [8]. split; [repeat constructor|reflexivity].
Qed.

(** A string that its own runes write back is well formed. *)
Lemma well_formed_check (x : string) :
  string_of_runes (range_string x) = x -> well_formed x.
Proof.
  intros H. exists (range_string x). split; [apply range_string_valid|].
  now symmetry.
Qed.

Lemma Forall_of_forallb {A} (f : A -> bool) (P : A -> Prop) (l : list A) :
  (forall a, f a = true -> P a) -> forallb f l = true -> Forall P l.
Proof.
  intros HP H. apply Forall_forall. intros a Ha.
  rewrite forallb_forall in H. auto.
Qed.

Lemma forallb_control (rs : list rune) :
  forallb unicode.IsControl rs = true -> Forall control rs.
Proof. apply Forall_of_forallb. auto. Qed.

Lemma forallb_not_backspace (rs : list rune) :
  forallb (fun c => negb (c =? 8)) rs = true -> Forall not_backspace rs.
Proof.
  apply Forall_of_forallb. intros c Hc Heq. subst c. discriminate.
Qed.

(** ** More on the loop of processLine *)

Section MoreLoop.

Import Minimal.

Lemma loop_no_backspace (chars result : list rune) :
  Forall not_backspace chars ->
  fold_left processLine_step chars result = result ++ printable chars.
Proof.
  intros Hchars. revert result.
  induction Hchars as [|c chars Hc _ IH]; intros result; cbn [fold_left].
  - cbn. now rewrite app_nil_r.
  - rewrite IH. unfold processLine_step, printable. cbn [filter].
    destruct (Z.eqb_spec c 8) as [->|_]; [now elim Hc|].
    destruct (unicode.IsControl c); cbn [negb]; [reflexivity|].
    now rewrite <- app_assoc.
Qed.

Lemma loop_all_control (chars : list rune) :
  Forall control chars -> fold_left processLine_step chars [] = [].
Proof.
  induction 1 as [|c chars Hc _ IH]; cbn [fold_left]; [reflexivity|].
  unfold processLine_step at 2. unfold control in Hc. rewrite Hc.
  destruct (c =? 8); cbn; exact IH.
Qed.

Lemma loop_erase (n : nat) (result typed : list rune) :
  List.length typed = n ->
  fold_left processLine_step (repeat 8 n) (result ++ typed) = result.
Proof.
  revert typed. induction n as [|n IH]; intros typed Hlen.
  - destruct typed; [|discriminate]. cbn. apply app_nil_r.
  - destruct typed as [|x typed _] using rev_ind.
    + discriminate.
    + rewrite length_app in Hlen. cbn [List.length] in Hlen.
      cbn [repeat fold_left]. unfold processLine_step at 2.
      cbn [Z.eqb Pos.eqb].
      rewrite app_assoc, firstn_pred_snoc.
      rewrite length_app, Nat.add_comm. cbn [List.length Nat.add Nat.ltb Nat.leb].
      apply IH. lia.
Qed.

Lemma loop_lower (chars result : list rune) :
  (List.length result + List.length (printable chars)
   <= List.length (fold_left processLine_step chars result)
      + count_backspaces chars)%nat.
Proof.
  revert result. induction chars as [|c chars IH]; intros result.
  - cbn. lia.
  - cbn [fold_left]. specialize (IH (processLine_step result c)).
    unfold printable, count_backspaces in *. cbn [filter].
    unfold processLine_step in *.
    destruct (Z.eqb_spec c 8) as [->|Hc].
    + change (unicode.IsControl 8) with true. cbn [negb List.length].
      destruct (0 <? List.length result)%nat.
      * rewrite length_firstn in IH. lia.
      * lia.
    + destruct (unicode.IsControl c); cbn [negb List.length] in *.
      * lia.
      * rewrite length_app in IH. cbn [List.length] in IH. lia.
Qed.

End MoreLoop.

(** ** More on the normaliser *)

Lemma processLine_wf (x : string) : well_formed (Minimal.processLine x).
Proof.
  exists (fold_left Minimal.processLine_step (range_string x) []).
  split; [|reflexivity].
  apply loop_valid; [constructor|apply range_string_valid].
Qed.

Lemma processLine_clean (x : string) :
  Forall not_control (range_string (Minimal.processLine x)).
Proof. rewrite range_processLine. apply loop_not_control. constructor. Qed.

(** X1. Whatever the bytes of the line, the normalised line is
    well-formed UTF-8. *)
Theorem processLine_well_formed (x : string) :
  well_formed (Minimal.processLine x)
  /\ well_formed (Extended.processLine x).
Proof. split; apply processLine_wf. Qed.

(** X2. Text that is typed and then erased leaves no trace: after a
    well-formed line [a], a well-formed text [b] without control
    characters followed by as many backspaces as [b] has code points
    gives the normalised line of [a]. *)
Theorem processLine_erased (a b : string) :
  well_formed a -> well_formed b ->
  Forall not_control (range_string b) ->
  Minimal.processLine
    (a +++ b +++ backspaces (List.length (range_string b)))
  = Minimal.processLine a.
Proof.
  intros Ha Hb Hc. unfold Minimal.processLine.
  rewrite range_string_app by assumption.
  rewrite range_string_app by assumption.
  rewrite range_backspaces, !fold_left_app.
  rewrite (loop_identity (range_string b)) by assumption.
  now rewrite loop_erase.
Qed.

Lemma processLine_erased_witness :
  Minimal.processLine ("tes" +++ "t 世界" +++ backspaces 4) = Minimal.processLine "tes".
Proof.
  apply (processLine_erased "tes" "t 世界").
  - apply well_formed_check. vm_compute. reflexivity.
  - apply well_formed_check. vm_compute. reflexivity.
  - apply forallb_not_control. vm_compute. reflexivity.
Defined.

(** X3. Control characters and backspaces at the start of a line do
    nothing: a well-formed prefix made of control characters only can
    be dropped. *)
Theorem processLine_leading_control (a b : string) :
  well_formed a -> Forall control (range_string a) ->
  Minimal.processLine (a +++ b) = Minimal.processLine b.
Proof.
  intros Ha Hc. unfold Minimal.processLine.
  rewrite range_string_app by assumption.
  now rewrite fold_left_app, loop_all_control.
Qed.

Lemma processLine_leading_control_witness :
  Minimal.processLine ((bs +++ cr +++ bs +++ esc) +++ "hello")
  = Minimal.processLine "hello".
Proof.
  apply processLine_leading_control.
  - apply well_formed_check. vm_compute. reflexivity.
  - apply forallb_control. vm_compute. reflexivity.
Defined.

(** X4. The normaliser goes through a concatenation when what follows
    holds no backspace: for a well-formed [a], the normalised line of
    [a] followed by [b] is the normalised line of [a] followed by the
    normalised line of [b]. *)
Theorem processLine_append (a b : string) :
  well_formed a -> Forall not_backspace (range_string b) ->
  Minimal.processLine (a +++ b)
  = Minimal.processLine a +++ Minimal.processLine b.
Proof.
  intros Ha Hb. unfold Minimal.processLine.
  rewrite range_string_app by assumption.
  rewrite fold_left_app.
  rewrite !(loop_no_backspace (range_string b)) by assumption.
  cbn [app]. apply string_of_runes_app.
Qed.

Lemma processLine_append_witness :
  Minimal.processLine (("BUILD" +++ bs) +++ (cr +++ " SUCCESS"))
  = Minimal.processLine ("BUILD" +++ bs) +++ Minimal.processLine (cr +++ " SUCCESS").
Proof.
  apply processLine_append.
  - apply well_formed_check. vm_compute. reflexivity.
  - apply forallb_not_backspace. vm_compute. reflexivity.
Defined.

(** X5. On a line without backspace the normaliser only drops the
    control characters: the code points of the normalised line are the
    code points of the line that are not control characters, in
    order. *)
Theorem processLine_drops_control (x : string) :
  Forall not_backspace (range_string x) ->
  range_string (Minimal.processLine x) = printable (range_string x).
Proof.
  intros Hx. rewrite range_processLine. now rewrite loop_no_backspace.
Qed.

Lemma processLine_drops_control_witness :
  range_string (Minimal.processLine ("a" +++ tab +++ "世" +++ cr))
  = printable (range_string ("a" +++ tab +++ "世" +++ cr)).
Proof.
  apply processLine_drops_control.
  apply forallb_not_backspace. vm_compute. reflexivity.
Defined.

(** X6. A backspace removes at most one code point: the normalised line
    has at least as many code points as the line has code points that
    are not control characters, less the number of its backspaces. *)
Theorem processLine_length_lower (x : string) :
  (List.length (printable (range_string x))
   <= List.length (range_string (Minimal.processLine x))
      + count_backspaces (range_string x))%nat.
Proof.
  rewrite range_processLine.
  pose proof (loop_lower (range_string x) []) as H. cbn [List.length] in H.
  exact H.
Qed.

(** ** More on the configuration *)

Section MoreConfiguration.
Context {R : Regexp}.

Lemma bind_ext {A B} (m : M Rx A) (k1 k2 : A -> M Rx B) (w : World Rx) :
  (forall a w', k1 a w' = k2 a w') -> bind m k1 w = bind m k2 w.
Proof.
  intros H. unfold bind. destruct (m w) as [[a|c] w']; [apply H|reflexivity].
Qed.

Lemma failf_Exit {A} (msg : string) (usage : M Rx unit) (w : World Rx) :
  exists code w', failf (A := A) msg usage w = (Exit code, w').
Proof.
  unfold failf, bind, Fprint_stderr, os_Exit.
  match goal with
  | |- context [usage ?v] => destruct (usage v) as [[x|c] w']
  end; eauto.
Qed.

Lemma compiled_from_snoc (values : list string) (patterns : list Rx)
      (value : string) (re : Rx) :
  compiled_from values patterns -> Compile value = inl re ->
  compiled_from (values ++ [value]) (patterns ++ [re]).
Proof.
  intros H Hc. apply Forall2_app; [exact H|]. constructor; [exact Hc|constructor].
Qed.

(** What [flag.Parse] of the minimal variant returns, from any lists. *)
Lemma minimal_parse_returns (args : list Minimal.flagArg) :
  forall sp fp w r w',
    Minimal.flag_Parse args sp fp w = (Return r, w') ->
    w' = w
    /\ exists s f,
        r = (sp ++ s, fp ++ f)
        /\ compiled_from (success_values args) s
        /\ compiled_from (failure_values args) f.
Proof.
  induction args as [|a args IH]; intros sp fp w r w' H.
  - cbn in H. injection H as <- <-. split; [reflexivity|].
    exists [], []. rewrite !app_nil_r. repeat split; constructor.
  - destruct a as [v|v]; cbn [Minimal.flag_Parse] in H;
      unfold Minimal.RegexSlice_Set in H;
      destruct (Compile v) as [re|e] eqn:Hv.
    + destruct (IH _ _ _ _ _ H) as [-> [s [f [-> [Hs Hf]]]]].
      split; [reflexivity|]. exists (re :: s), f.
      rewrite <- app_assoc. repeat split; [|exact Hf].
      cbn. constructor; assumption.
    + destruct (failf_Exit (A := Minimal.RegexSlice * Minimal.RegexSlice)
                  (invalid_value v "success"
                     ("invalid regex pattern '" +++ v +++ "': " +++ e))
                  (Fprint_stderr PrintDefaults) w) as [c [w'' Hf]].
      rewrite Hf in H. discriminate.
    + destruct (IH _ _ _ _ _ H) as [-> [s [f [-> [Hs Hf]]]]].
      split; [reflexivity|]. exists s, (re :: f).
      rewrite <- app_assoc. repeat split; [exact Hs|].
      cbn. constructor; assumption.
    + destruct (failf_Exit (A := Minimal.RegexSlice * Minimal.RegexSlice)
                  (invalid_value v "failure"
                     ("invalid regex pattern '" +++ v +++ "': " +++ e))
                  (Fprint_stderr PrintDefaults) w) as [c [w'' Hf]].
      rewrite Hf in H. discriminate.
Qed.

(** X7. In the minimal variant [flag.Parse] returns when every pattern
    of the command line compiles, and whenever it returns it has
    written nothing and the two pattern lists are the compiled values of
    the [-success] and of the [-failure] flags, each in the order of the
    command line. *)
Theorem minimal_parse_declared_order (args : list Minimal.flagArg)
        (w : World Rx) :
  (Forall compiles args ->
   exists sp fp, Minimal.flag_Parse args [] [] w = (Return (sp, fp), w))
  /\ (forall sp fp w',
         Minimal.flag_Parse args [] [] w = (Return (sp, fp), w') ->
         w' = w
         /\ compiled_from (success_values args) sp
         /\ compiled_from (failure_values args) fp).
Proof.
  split.
  - intros Hall.
    destruct (minimal_parse_ok args Hall [] [] w) as [sp [fp [Hp _]]].
    now exists sp, fp.
  - intros sp fp w' H.
    destruct (minimal_parse_returns args _ _ _ _ _ H)
      as [-> [s [f [Heq [Hs Hf]]]]].
    cbn [app] in Heq. injection Heq as -> ->. auto.
Qed.

Lemma compiled_from_sources (values : list string) (patterns : list Rx) :
  String_is_source -> compiled_from values patterns ->
  map RxString patterns = values.
Proof.
  intros Hsrc H. induction H as [|v re vs res Hv _ IH]; cbn; [reflexivity|].
  now rewrite (Hsrc v re Hv), IH.
Qed.

(** X8. When [String] of a compiled expression gives back its source,
    as package [regexp] does, [String] of a pattern list after
    [flag.Parse] is the values of its flag in the order of the command
    line, joined by commas. *)
Theorem RegexSlice_String_after_Parse (args : list Minimal.flagArg)
        (sp fp : list Rx) (w w' : World Rx) :
  String_is_source ->
  Minimal.flag_Parse args [] [] w = (Return (sp, fp), w') ->
  Minimal.RegexSlice_String sp = Join (success_values args) ","
  /\ Minimal.RegexSlice_String fp = Join (failure_values args) ",".
Proof.
  intros Hsrc H.
  destruct (minimal_parse_returns args _ _ _ _ _ H)
    as [_ [s [f [Heq [Hs Hf]]]]].
  cbn [app] in Heq. injection Heq as -> ->.
  unfold Minimal.RegexSlice_String.
  now rewrite !(compiled_from_sources _ _ Hsrc) by eassumption.
Qed.

End MoreConfiguration.

Lemma literal_String_is_source : String_is_source (R := Literal.engine).
Proof.
  intros value re H. cbn in *. unfold Literal.Compile in H.
  destruct (existsb Literal.special (list_ascii_of_string value));
    [discriminate|]. now injection H as <-.
Qed.

Lemma minimal_parse_declared_order_witness :
  let args := [Minimal.success "DONE"; Minimal.failure "FAILED";
               Minimal.success "SUCCESS"] in
  (exists sp fp,
      Minimal.flag_Parse (R := Literal.engine) args [] [] World0
      = (Return (sp, fp), World0))
  /\ compiled_from (R := Literal.engine) ["DONE"; "SUCCESS"] ["DONE"; "SUCCESS"].
Proof.
  cbv zeta.
  destruct (minimal_parse_declared_order (R := Literal.engine)
              [Minimal.success "DONE"; Minimal.failure "FAILED";
               Minimal.success "SUCCESS"] World0) as [H1 H2].
  split.
  - apply H1. repeat constructor; eexists; reflexivity.
  - apply (H2 ["DONE"; "SUCCESS"] ["FAILED"] World0 eq_refl).
Defined.

Lemma RegexSlice_String_after_Parse_witness :
  Minimal.RegexSlice_String (R := Literal.engine) ["test"; "hello"]
  = "test,hello"
  /\ Minimal.RegexSlice_String (R := Literal.engine) [] = "".
Proof.
  apply (RegexSlice_String_after_Parse (R := Literal.engine)
           [Minimal.success "test"; Minimal.success "hello"]
           ["test"; "hello"] [] World0 World0).
  - exact literal_String_is_source.
  - reflexivity.
Defined.

(** ** The command line of the extended variant *)

Section ExtendedMain.
Context {R : Regexp}.

Lemma failf_printHelp {A} (msg : string) (w : World Rx) :
  failf (A := A) msg Extended.printHelp w
  = (Exit 99,
     mkWorld (stdout w) (stderr w ++ Text (msg +++ nl) :: map Text Extended.helpText)
             (evaluated w) (scanned w)).
Proof.
  unfold failf. unfold bind at 1. unfold Fprint_stderr at 1.
  unfold bind at 1. rewrite printHelp_eq.
  cbn [stdout stderr evaluated scanned]. now rewrite <- app_assoc.
Qed.

(** [flag.Parse] of the extended variant either returns, having written
    nothing, or ends the process with status 99. *)
Lemma extended_parse_cases (flags : list Extended.flagArg) :
  forall f w,
    (exists f', Extended.flag_Parse flags f w = (Return f', w))
    \/ (exists w', Extended.flag_Parse flags f w = (Exit 99, w')).
Proof.
  induction flags as [|a flags IH]; intros f w.
  - left. now exists f.
  - destruct a as [v|v|q|h]; cbn [Extended.flag_Parse];
      try apply IH;
      unfold Extended.RegexSlice_Set;
      (destruct (Compile v) as [re|e]; [apply IH|]);
      right; rewrite failf_printHelp; eauto.
Qed.

Lemma extended_parse_ok (flags : list Extended.flagArg) :
  Forall extended_compiles flags ->
  forall f w,
  exists s fl,
    Extended.flag_Parse flags f w
    = (Return (Extended.mkFlags (Extended.successPatterns f ++ s)
                                (Extended.failurePatterns f ++ fl)
                                (last_quiet flags (Extended.quietFlag f))
                                (last_help flags (Extended.showHelp f))), w)
    /\ compiled_from (extended_success_values flags) s
    /\ compiled_from (extended_failure_values flags) fl.
Proof.
  induction 1 as [|a flags Ha _ IH]; intros f w.
  - exists [], []. rewrite !app_nil_r. destruct f.
    repeat split; constructor.
  - destruct a as [v|v|q|h]; cbn [Extended.flag_Parse].
    + destruct Ha as [re Hre]. unfold Extended.RegexSlice_Set. rewrite Hre.
      destruct (IH (Extended.mkFlags (Extended.successPatterns f ++ [re])
                                     (Extended.failurePatterns f)
                                     (Extended.quietFlag f)
                                     (Extended.showHelp f)) w)
        as [s [fl [Hp [Hs Hf]]]].
      exists (re :: s), fl. rewrite Hp.
      cbn [Extended.successPatterns Extended.failurePatterns
           Extended.quietFlag Extended.showHelp].
      rewrite <- app_assoc. repeat split; [|exact Hf].
      cbn. constructor; assumption.
    + destruct Ha as [re Hre]. unfold Extended.RegexSlice_Set. rewrite Hre.
      destruct (IH (Extended.mkFlags (Extended.successPatterns f)
                                     (Extended.failurePatterns f ++ [re])
                                     (Extended.quietFlag f)
                                     (Extended.showHelp f)) w)
        as [s [fl [Hp [Hs Hf]]]].
      exists s, (re :: fl). rewrite Hp.
      cbn [Extended.successPatterns Extended.failurePatterns
           Extended.quietFlag Extended.showHelp].
      rewrite <- app_assoc. repeat split; [exact Hs|].
      cbn. constructor; assumption.
    + destruct (IH (Extended.mkFlags (Extended.successPatterns f)
                                     (Extended.failurePatterns f) q
                                     (Extended.showHelp f)) w)
        as [s [fl [Hp [Hs Hf]]]].
      exists s, fl. rewrite Hp. repeat split; assumption.
    + destruct (IH (Extended.mkFlags (Extended.successPatterns f)
                                     (Extended.failurePatterns f)
                                     (Extended.quietFlag f) h) w)
        as [s [fl [Hp [Hs Hf]]]].
      exists s, fl. rewrite Hp. repeat split; assumption.
Qed.

(** X9. In the extended variant, when every pattern of the command line
    compiles, [flag.Parse] returns without writing anything: the pattern
    lists are the compiled values of [-success] and of [-failure] in the
    order of the command line, and the quiet and help flags have the
    value of their last occurrence, false when they do not occur. *)
Theorem extended_parse_declared_order (flags : list Extended.flagArg)
        (w : World Rx) :
  Forall extended_compiles flags ->
  exists sp fp,
    Extended.flag_Parse flags (Extended.mkFlags [] [] false false) w
    = (Return (Extended.mkFlags sp fp (last_quiet flags false)
                                (last_help flags false)), w)
    /\ compiled_from (extended_success_values flags) sp
    /\ compiled_from (extended_failure_values flags) fp.
Proof.
  intros Hall.
  destruct (extended_parse_ok flags Hall
              (Extended.mkFlags [] [] false false) w) as [s [fl H]].
  now exists s, fl.
Qed.

(** X10. With [-help], on a command line whose patterns compile, the
    extended variant writes the help text to the error output and exits
    with status 99: no file is opened and no line is read, whatever the
    other flags and arguments. *)
Theorem help_exits_99 (flags : list Extended.flagArg) (args : list string)
        (stdin : Stream) (os_Open : string -> Stream + string) :
  Forall extended_compiles flags ->
  last_help flags false = true ->
  exec (Extended.main flags args stdin os_Open)
  = (99, mkWorld [] (map Text Extended.helpText) [] 0).
Proof.
  intros Hall Hhelp.
  destruct (extended_parse_ok flags Hall
              (Extended.mkFlags [] [] false false) World0)
    as [sp [fp [Hp _]]].
  cbn [app Extended.successPatterns Extended.failurePatterns
       Extended.quietFlag Extended.showHelp] in Hp.
  unfold exec, Extended.main. rewrite bind_eq, Hp.
  cbn [Extended.showHelp]. rewrite Hhelp.
  rewrite bind_eq, printHelp_eq. reflexivity.
Qed.

(** X11. With more than one positional argument and no [-help], on a
    command line whose patterns compile, the extended variant reports
    it, writes the help text and exits with status 99 without opening a
    file or reading a line. *)
Theorem too_many_arguments_exits_99 (flags : list Extended.flagArg)
        (name other : string) (more : list string)
        (stdin : Stream) (os_Open : string -> Stream + string) :
  Forall extended_compiles flags ->
  last_help flags false = false ->
  exec (Extended.main flags (name :: other :: more) stdin os_Open)
  = (99,
     mkWorld []
             (Text ("Too many positional arguments provided." +++ nl +++ nl)
              :: map Text Extended.helpText)
             [] 0).
Proof.
  intros Hall Hhelp.
  destruct (extended_parse_ok flags Hall
              (Extended.mkFlags [] [] false false) World0)
    as [sp [fp [Hp _]]].
  cbn [app Extended.successPatterns Extended.failurePatterns
       Extended.quietFlag Extended.showHelp] in Hp.
  unfold exec, Extended.main. rewrite bind_eq, Hp.
  cbn [Extended.showHelp]. rewrite Hhelp.
  rewrite bind_eq. unfold ret at 1.
  rewrite bind_eq, bind_eq, bind_eq. unfold Fprint_stderr at 1.
  rewrite printHelp_eq. reflexivity.
Qed.

(** X12. When the file named on the command line cannot be opened, the
    extended variant reports the name of the file and the error and
    exits with status 2; nothing is read from the standard input. *)
Theorem open_error_exits_2 (flags : list Extended.flagArg) (name e : string)
        (stdin : Stream) (os_Open : string -> Stream + string) :
  Forall extended_compiles flags ->
  last_help flags false = false ->
  os_Open name = inr e ->
  exec (Extended.main flags [name] stdin os_Open)
  = (2,
     mkWorld []
             [Text ("Error opening file '" +++ name +++ "': " +++ e +++ nl)]
             [] 0).
Proof.
  intros Hall Hhelp Hopen.
  destruct (extended_parse_ok flags Hall
              (Extended.mkFlags [] [] false false) World0)
    as [sp [fp [Hp _]]].
  cbn [app Extended.successPatterns Extended.failurePatterns
       Extended.quietFlag Extended.showHelp] in Hp.
  unfold exec, Extended.main. rewrite bind_eq, Hp.
  cbn [Extended.showHelp]. rewrite Hhelp.
  rewrite bind_eq. unfold ret at 1.
  rewrite bind_eq, bind_eq. unfold ret at 1.
  rewrite Hopen. reflexivity.
Qed.

(** X13. Naming a file is the same as feeding that file to the standard
    input: when the file opens, the run with the file as the only
    argument ends as the run without argument whose standard input is
    the content of the file, whatever the flags; the standard input of
    the first run is never read. *)
Theorem file_replaces_stdin (flags : list Extended.flagArg) (name : string)
        (file stdin : Stream) (os_Open os_Open' : string -> Stream + string) :
  os_Open name = inl file ->
  Extended.main flags [name] stdin os_Open World0
  = Extended.main flags [] file os_Open' World0.
Proof.
  intros Hopen. unfold Extended.main.
  apply bind_ext. intros f w.
  apply bind_ext. intros _ w'.
  rewrite Hopen. reflexivity.
Qed.

End ExtendedMain.

(** ** More on the runs *)

Section MoreRuns.
Context {R : Regexp}.

Lemma decision_code (sp fp : list Rx) (s : string) (code : Z) :
  decision sp fp s = Some code ->
  (code = 0 /\ matches_any sp s = true)
  \/ (code = 1 /\ matches_any sp s = false /\ matches_any fp s = true).
Proof.
  unfold decision.
  destruct (matches_any sp s); [intros [= <-]; auto|].
  destruct (matches_any fp s); [intros [= <-]; auto|discriminate].
Qed.

Lemma consumed_firstn (sp fp : list Rx) (input : list string) :
  fst (consumed sp fp input)
  = firstn (List.length (fst (consumed sp fp input))) input.
Proof.
  induction input as [|x l IH]; cbn [consumed]; [reflexivity|].
  destruct (decision sp fp (Minimal.processLine x)).
  - reflexivity.
  - destruct (consumed sp fp l) as [read d]. cbn [fst] in *.
    cbn [List.length firstn]. now rewrite <- IH.
Qed.

Lemma extended_run_codes (quiet : bool) (sp fp : list Rx) (input : Stream)
      (w : World Rx) :
  exists code w',
    Extended.run quiet sp fp input w = (Exit code, w')
    /\ In code [0; 1; 2; 3].
Proof.
  rewrite extended_run_eq. cbv zeta.
  destruct (consumed_cases sp fp (lines input))
    as [[_ Hc]|[pre [line [post [code [_ [_ [Hd Hc]]]]]]]];
    rewrite Hc; cbn [fst snd].
  - destruct (err input); eexists; eexists; (split; [reflexivity|]);
      cbn; auto.
  - eexists; eexists; split; [reflexivity|].
    destruct (decision_code _ _ _ _ Hd) as [[-> _]|[-> _]]; cbn; auto.
Qed.

Lemma minimal_parse_cases (args : list Minimal.flagArg) :
  forall sp fp w,
    (exists r, Minimal.flag_Parse args sp fp w = (Return r, w))
    \/ (exists w', Minimal.flag_Parse args sp fp w = (Exit 2, w')).
Proof.
  induction args as [|a args IH]; intros sp fp w.
  - left. eexists. reflexivity.
  - destruct a as [v|v]; cbn [Minimal.flag_Parse];
      unfold Minimal.RegexSlice_Set;
      (destruct (Compile v) as [re|e]; [apply IH|]);
      right; unfold failf, bind, Fprint_stderr, os_Exit; eauto.
Qed.

(** X14. The exit statuses of a run whose input ends, that is, whose
    scanner delivers finitely many lines and then the end of the input
    or a read error, as every [Stream] does.  On such an input the
    extended variant never returns from [main]: it ends by [os.Exit],
    with status 0, 1, 2, 3 or 99, whatever the command line and the
    files; and the minimal variant ends with status 0, 1 or 2.  An
    input that never ends is not a [Stream], and nothing is said of
    it. *)
Theorem exit_codes :
  (forall flags args stdin os_Open,
      exists code w,
        Extended.main flags args stdin os_Open World0 = (Exit code, w)
        /\ In code [0; 1; 2; 3; 99])
  /\ (forall args stdin,
         In (fst (exec (Minimal.main args stdin))) [0; 1; 2]).
Proof.
  split.
  - intros flags args stdin os_Open. unfold Extended.main.
    rewrite bind_eq.
    destruct (extended_parse_cases flags (Extended.mkFlags [] [] false false)
                                   World0) as [[f Hp]|[w' Hp]]; rewrite Hp.
    + rewrite bind_eq.
      destruct (Extended.showHelp f).
      * rewrite printHelp_eq. eexists; eexists; split; [reflexivity|].
        cbn; auto 6.
      * unfold ret at 1. rewrite bind_eq.
        destruct args as [|name [|other more]].
        -- unfold ret at 1.
           destruct (extended_run_codes (Extended.quietFlag f)
                       (Extended.successPatterns f)
                       (Extended.failurePatterns f) stdin World0)
             as [code [w [Hr Hin]]].
           exists code, w. split; [exact Hr|]. cbn in *. intuition.
        -- rewrite bind_eq. unfold ret at 1.
           destruct (os_Open name) as [file|e].
           ++ unfold ret at 1.
              destruct (extended_run_codes (Extended.quietFlag f)
                          (Extended.successPatterns f)
                          (Extended.failurePatterns f) file World0)
                as [code [w [Hr Hin]]].
              exists code, w. split; [exact Hr|]. cbn in *. intuition.
           ++ eexists; eexists; split; [reflexivity|]. cbn; auto.
        -- rewrite bind_eq, bind_eq. unfold Fprint_stderr at 1.
           rewrite printHelp_eq.
           eexists; eexists; split; [reflexivity|]. cbn; auto 6.
    + eexists; eexists; split; [reflexivity|]. cbn; auto 6.
  - intros args stdin. unfold exec, Minimal.main. rewrite bind_eq.
    destruct (minimal_parse_cases args [] [] World0) as [[r Hp]|[w' Hp]];
      rewrite Hp.
    + rewrite minimal_run_eq. cbv zeta.
      destruct (consumed_cases (fst r) (snd r) (lines stdin))
        as [[_ Hc]|[pre [line [post [code [_ [_ [Hd Hc]]]]]]]];
        rewrite Hc; cbn [fst snd].
      * destruct (err stdin); cbn; auto.
      * destruct (decision_code _ _ _ _ Hd) as [[-> _]|[-> _]]; cbn; auto.
    + cbn. auto.
Qed.

Variables (sp fp : list Rx).

(** X15. What each status of the extended variant means, from the
    scanner loop on: 0 exactly when the first line that any pattern
    matches is matched by a success pattern, 1 exactly when it is
    matched by failure patterns only, 2 exactly when no line is matched
    and reading fails, 3 exactly when no line is matched and the input
    ends. *)
Theorem extended_status_means (input : Stream) (quiet : bool) :
  let st := fst (exec (Extended.run quiet sp fp input)) in
  (st = 0 <->
   exists pre line post,
     lines input = pre ++ line :: post /\ Forall (undecided sp fp) pre
     /\ matches_any sp (Minimal.processLine line) = true)
  /\ (st = 1 <->
      exists pre line post,
        lines input = pre ++ line :: post /\ Forall (undecided sp fp) pre
        /\ matches_any sp (Minimal.processLine line) = false
        /\ matches_any fp (Minimal.processLine line) = true)
  /\ (st = 2 <->
      Forall (undecided sp fp) (lines input) /\ err input <> None)
  /\ (st = 3 <->
      Forall (undecided sp fp) (lines input) /\ err input = None).
Proof.
  cbv zeta. unfold exec. rewrite extended_run_eq. cbv zeta.
  assert (Hdec : forall pre line post code,
             lines input = pre ++ line :: post ->
             Forall (undecided sp fp) pre ->
             decision sp fp (Minimal.processLine line) = Some code ->
             snd (consumed sp fp (lines input)) = Some code).
  { intros pre line post code -> Hpre Hd.
    now rewrite (consumed_decisive sp fp pre post line code). }
  destruct (consumed_cases sp fp (lines input))
    as [[Hall Hc]|[pre [line [post [code [Hin [Hpre [Hd Hc]]]]]]]].
  - rewrite Hc. cbn [fst snd].
    assert (Hno : forall pre line post,
               lines input = pre ++ line :: post ->
               Forall (undecided sp fp) pre ->
               decision sp fp (Minimal.processLine line) <> None -> False).
    { intros pre line post Hin _ Hd. rewrite Hin in Hall.
      apply Forall_elt in Hall. contradiction. }
    repeat split.
    + destruct (err input); discriminate.
    + intros [pre [line [post [Hin [Hpre Hs]]]]]. exfalso.
      apply (Hno pre line post Hin Hpre). unfold decision. now rewrite Hs.
    + destruct (err input); discriminate.
    + intros [pre [line [post [Hin [Hpre [Hs Hf]]]]]]. exfalso.
      apply (Hno pre line post Hin Hpre). unfold decision. now rewrite Hs, Hf.
    + assumption.
    + destruct (err input); [discriminate|intros _; discriminate].
    + intros [_ He]. destruct (err input); [reflexivity|congruence].
    + assumption.
    + destruct (err input); [discriminate|reflexivity].
    + intros [_ He]. now rewrite He.
  - rewrite Hc. cbn [fst snd status].
    assert (Hsome : Forall (undecided sp fp) (lines input) -> False).
    { intros Hall. rewrite Hin in Hall. apply Forall_elt in Hall.
      unfold undecided in Hall. congruence. }
    destruct (decision_code _ _ _ _ Hd) as [[-> Hs]|[-> [Hs Hf]]].
    + repeat split; try discriminate; try (intros [Hall _]; now destruct Hsome).
      * intros _. now exists pre, line, post.
      * intros [pre' [line' [post' [Hin' [Hpre' [Hs' Hf']]]]]].
        pose proof (Hdec pre' line' post' 1 Hin' Hpre') as H1.
        rewrite Hc in H1. cbn [snd] in H1.
        assert (Some 0 = Some 1) as [=].
        apply H1. unfold decision. now rewrite Hs', Hf'.
    + repeat split; try discriminate; try (intros [Hall _]; now destruct Hsome).
      * intros [pre' [line' [post' [Hin' [Hpre' Hs']]]]].
        pose proof (Hdec pre' line' post' 0 Hin' Hpre') as H1.
        rewrite Hc in H1. cbn [snd] in H1.
        assert (Some 1 = Some 0) as [=].
        apply H1. unfold decision. now rewrite Hs'.
      * intros _. now exists pre, line, post.
Qed.

End MoreRuns.

Section MinimalRuns.
Context {R : Regexp}.
Variables (sp fp : list Rx).

Lemma first_decides (input : list string) (code : Z) :
  snd (consumed sp fp input) = Some code <->
  exists pre line post,
    input = pre ++ line :: post /\ Forall (undecided sp fp) pre
    /\ decision sp fp (Minimal.processLine line) = Some code.
Proof.
  split.
  - intros H.
    destruct (consumed_cases sp fp input)
      as [[_ Hc]|[pre [line [post [code' [Hin [Hpre [Hd Hc]]]]]]]];
      rewrite Hc in H; cbn [snd] in H; [discriminate|].
    injection H as <-. now exists pre, line, post.
  - intros [pre [line [post [-> [Hpre Hd]]]]].
    now rewrite (consumed_decisive sp fp pre post line code).
Qed.

Lemma none_decides (input : list string) :
  snd (consumed sp fp input) = None <-> Forall (undecided sp fp) input.
Proof.
  split.
  - intros H.
    destruct (consumed_cases sp fp input)
      as [[Hall _]|[pre [line [post [code' [_ [_ [_ Hc]]]]]]]];
      [assumption|]. rewrite Hc in H. discriminate.
  - intros Hall. now rewrite consumed_undecided.
Qed.

Lemma decision_success (s : string) :
  decision sp fp s = Some 0 <-> matches_any sp s = true.
Proof.
  unfold decision. destruct (matches_any sp s); [tauto|].
  destruct (matches_any fp s); split; discriminate.
Qed.

Lemma decision_failure (s : string) :
  decision sp fp s = Some 1 <->
  matches_any sp s = false /\ matches_any fp s = true.
Proof.
  unfold decision. destruct (matches_any sp s).
  - split; [discriminate|intros [? _]; discriminate].
  - destruct (matches_any fp s); split; try tauto; try discriminate.
    intros [_ ?]. discriminate.
Qed.

(** X16. What each status of the minimal variant means, from the
    scanner loop on: 1 exactly when the first line that any pattern
    matches is matched by failure patterns only, 2 exactly when no line
    is matched and reading fails, and 0 in two cases that the status
    does not tell apart: the first line matched is matched by a success
    pattern, or the input ends with no line matched. *)
Theorem minimal_status_means (input : Stream) :
  let st := fst (exec (Minimal.run sp fp input)) in
  (st = 0 <->
   (exists pre line post,
       lines input = pre ++ line :: post /\ Forall (undecided sp fp) pre
       /\ matches_any sp (Minimal.processLine line) = true)
   \/ (Forall (undecided sp fp) (lines input) /\ err input = None))
  /\ (st = 1 <->
      exists pre line post,
        lines input = pre ++ line :: post /\ Forall (undecided sp fp) pre
        /\ matches_any sp (Minimal.processLine line) = false
        /\ matches_any fp (Minimal.processLine line) = true)
  /\ (st = 2 <->
      Forall (undecided sp fp) (lines input) /\ err input <> None).
Proof.
  cbv zeta. unfold exec. rewrite minimal_run_eq. cbv zeta.
  pose proof (first_decides (lines input) 0) as H0.
  pose proof (first_decides (lines input) 1) as H1.
  pose proof (none_decides (lines input)) as Hn.
  assert (E0 : (exists pre line post,
                   lines input = pre ++ line :: post
                   /\ Forall (undecided sp fp) pre
                   /\ decision sp fp (Minimal.processLine line) = Some 0)
               <-> (exists pre line post,
                       lines input = pre ++ line :: post
                       /\ Forall (undecided sp fp) pre
                       /\ matches_any sp (Minimal.processLine line) = true)).
  { split; intros [pre [line [post [Hin [Hpre Hd]]]]];
      exists pre, line, post; repeat split; try assumption;
      now apply decision_success. }
  assert (E1 : (exists pre line post,
                   lines input = pre ++ line :: post
                   /\ Forall (undecided sp fp) pre
                   /\ decision sp fp (Minimal.processLine line) = Some 1)
               <-> (exists pre line post,
                       lines input = pre ++ line :: post
                       /\ Forall (undecided sp fp) pre
                       /\ matches_any sp (Minimal.processLine line) = false
                       /\ matches_any fp (Minimal.processLine line) = true)).
  { split; intros [pre [line [post [Hin [Hpre Hd]]]]];
      exists pre, line, post; (split; [assumption|split; [assumption|]]);
      now apply decision_failure. }
  rewrite <- E0, <- E1, <- H0, <- H1, <- Hn.
  destruct (consumed_cases sp fp (lines input))
    as [[_ Hc]|[pre [line [post [code [_ [_ [Hd Hc]]]]]]]];
    rewrite Hc; cbn [fst snd status].
  - destruct (err input); cbn [status]; repeat split; intros;
      repeat match goal with
             | H : _ \/ _ |- _ => destruct H
             | H : _ /\ _ |- _ => destruct H
             end; try discriminate; try congruence; auto.
  - destruct (decision_code _ _ _ _ Hd) as [[-> _]|[-> _]];
      repeat split; intros;
      repeat match goal with
             | H : _ \/ _ |- _ => destruct H
             | H : _ /\ _ |- _ => destruct H
             end; try discriminate; try congruence; auto.
Qed.

(** X17. Nothing after the line that decides matters: when a line
    decides, the run ends in the same way whatever lines follow it and
    however the input ends, in both variants. *)
Theorem reads_no_further (quiet : bool) (pre post post' : list string)
        (line : string) (e e' : option string) (code : Z) (w : World Rx) :
  Forall (undecided sp fp) pre ->
  decision sp fp (Minimal.processLine line) = Some code ->
  Extended.run quiet sp fp (mkStream (pre ++ line :: post) e) w
  = Extended.run quiet sp fp (mkStream (pre ++ line :: post') e') w
  /\ Minimal.run sp fp (mkStream (pre ++ line :: post) e) w
     = Minimal.run sp fp (mkStream (pre ++ line :: post') e') w.
Proof.
  intros Hpre Hd.
  rewrite !extended_run_eq, !minimal_run_eq. cbv zeta. cbn [lines err].
  rewrite !(consumed_decisive sp fp pre _ line code) by assumption.
  split; reflexivity.
Qed.

(** X18. The calls of [MatchString] are bounded: a run evaluates each
    pattern at most once for every line it reads. *)
Theorem calls_bounded (quiet : bool) (input : Stream) :
  let ext := snd (Extended.run quiet sp fp input World0) in
  let min := snd (Minimal.run sp fp input World0) in
  (List.length (evaluated ext)
   <= scanned ext * (List.length sp + List.length fp))%nat
  /\ (List.length (evaluated min)
      <= scanned min * (List.length sp + List.length fp))%nat.
Proof.
  assert (Hupto : forall ps s, (List.length (upto ps s) <= List.length ps)%nat).
  { induction ps as [|p ps IH]; intros s; cbn; [lia|].
    destruct (MatchString p s); cbn; [lia|]. specialize (IH s). lia. }
  assert (Hcalls : forall s,
             (List.length (calls sp fp s)
              <= List.length sp + List.length fp)%nat).
  { intros s. unfold calls. rewrite length_map, length_app.
    pose proof (Hupto sp s). pose proof (Hupto fp s).
    destruct (matches_any sp s); cbn [List.length]; lia. }
  assert (Hall : forall read,
             (List.length
                (flat_map (fun l => calls sp fp (Minimal.processLine l)) read)
              <= List.length read * (List.length sp + List.length fp))%nat).
  { induction read as [|l read IH]; cbn [flat_map List.length]; [lia|].
    rewrite length_app. specialize (Hcalls (Minimal.processLine l)). lia. }
  cbv zeta. rewrite extended_run_eq, minimal_run_eq. cbv zeta.
  specialize (Hall (fst (consumed sp fp (lines input)))).
  destruct (consumed sp fp (lines input)) as [read d]. cbn [fst snd] in *.
  destruct d as [code|]; [|destruct (err input)];
    cbn [fst snd after with_stderr stdout stderr evaluated scanned World0
         app Nat.add]; split; exact Hall.
Qed.

(** X19. The minimal variant writes every line it reads to the standard
    output in normalised form, in order, the line that decides included,
    and nothing else; each line written is well-formed UTF-8 without
    control characters. *)
Theorem minimal_echo (input : Stream) :
  let w := snd (Minimal.run sp fp input World0) in
  stdout w = map Minimal.processLine (firstn (scanned w) (lines input))
  /\ Forall (fun l => well_formed l /\ Forall not_control (range_string l))
            (stdout w).
Proof.
  cbv zeta. rewrite minimal_run_eq. cbv zeta.
  pose proof (consumed_firstn sp fp (lines input)) as Hread.
  destruct (consumed sp fp (lines input)) as [read d]. cbn [fst snd] in *.
  assert (Hout : forall l,
             Forall (fun l => well_formed l
                              /\ Forall not_control (range_string l))
                    (map Minimal.processLine l)).
  { intros l. apply Forall_forall. intros x Hx.
    apply in_map_iff in Hx. destruct Hx as [y [<- _]].
    split; [apply processLine_wf|apply processLine_clean]. }
  destruct d as [code|]; [|destruct (err input)];
    cbn [fst snd after with_stderr stdout stderr evaluated scanned World0
         echo app Nat.add];
    rewrite <- Hread; split; try reflexivity; apply Hout.
Qed.

End MinimalRuns.

(** X20. Without any pattern the programs are filters: every line of
    the input is written in normalised form, no pattern is evaluated,
    and the status tells only how the input ended: 2 after a read
    error, and at the end of the input 0 in the minimal variant and 3
    in the extended one. *)
Theorem no_patterns_filter {R : Regexp} (input : Stream) :
  exec (Minimal.run [] [] input)
  = (match err input with Some _ => 2 | None => 0 end,
     mkWorld (map Minimal.processLine (lines input))
             (match err input with
              | Some e => [Text ("Error reading from stdin: " +++ e +++ nl)]
              | None => []
              end)
             [] (List.length (lines input)))
  /\ exec (Extended.run false [] [] input)
     = (match err input with Some _ => 2 | None => 3 end,
        mkWorld (map Extended.processLine (lines input))
                [Text (match err input with
                       | Some e => "Error reading from stdin: " +++ e +++ nl
                       | None => "EOF found but no matching lines were detected"
                       end)]
                [] (List.length (lines input))).
Proof.
  assert (Hall : Forall (undecided [] []) (lines input)).
  { apply Forall_forall. intros l _. reflexivity. }
  assert (Hcalls : forall read : list string,
             flat_map (fun l => calls (R := R) [] [] (Minimal.processLine l)) read
             = []).
  { induction read as [|l read IH]; [reflexivity|exact IH]. }
  unfold exec. rewrite minimal_run_eq, extended_run_eq. cbv zeta.
  rewrite (consumed_undecided [] [] _ Hall). cbn [fst snd].
  unfold after, with_stderr, echo.
  cbn [stdout stderr evaluated scanned World0 app Nat.add].
  rewrite Hcalls.
  destruct (err input); split; reflexivity.
Qed.

(** ** The further properties on inputs *)

Lemma literal_flags_compile :
  Forall (extended_compiles (R := Literal.engine))
         [Extended.success "SUCCESS"; Extended.help true;
          Extended.quiet true; Extended.failure "FAILED";
          Extended.help false].
Proof. repeat constructor; cbn; eexists; reflexivity. Qed.

Lemma extended_parse_declared_order_witness :
  exists sp fp,
    Extended.flag_Parse (R := Literal.engine)
      [Extended.success "SUCCESS"; Extended.help true; Extended.quiet true;
       Extended.failure "FAILED"; Extended.help false]
      (Extended.mkFlags [] [] false false) World0
    = (Return (Extended.mkFlags sp fp true false), World0)
    /\ compiled_from (R := Literal.engine) ["SUCCESS"] sp
    /\ compiled_from (R := Literal.engine) ["FAILED"] fp.
Proof.
  apply (extended_parse_declared_order (R := Literal.engine)
           [Extended.success "SUCCESS"; Extended.help true;
            Extended.quiet true; Extended.failure "FAILED";
            Extended.help false] World0).
  exact literal_flags_compile.
Defined.

Lemma help_exits_99_witness :
  fst (exec (Extended.main (R := Literal.engine)
               [Extended.success "SUCCESS"; Extended.help true]
               ["build.log"; "other.log"]
               (mkStream ["BUILD SUCCESS"] None)
               (fun _ => inr "no such file or directory")))
  = 99.
Proof.
  rewrite (help_exits_99 (R := Literal.engine)).
  - reflexivity.
  - repeat constructor; cbn; eexists; reflexivity.
  - reflexivity.
Defined.

Lemma too_many_arguments_exits_99_witness :
  fst (exec (Extended.main (R := Literal.engine)
               [Extended.success "SUCCESS"]
               ["build.log"; "other.log"]
               (mkStream ["BUILD SUCCESS"] None)
               (fun _ => inl (mkStream ["BUILD SUCCESS"] None))))
  = 99.
Proof.
  rewrite (too_many_arguments_exits_99 (R := Literal.engine)).
  - reflexivity.
  - repeat constructor; cbn; eexists; reflexivity.
  - reflexivity.
Defined.

Lemma open_error_exits_2_witness :
  fst (exec (Extended.main (R := Literal.engine)
               [Extended.success "SUCCESS"]
               ["build.log"]
               (mkStream ["BUILD SUCCESS"] None)
               (fun _ => inr "no such file or directory")))
  = 2.
Proof.
  rewrite (open_error_exits_2 (R := Literal.engine)
             [Extended.success "SUCCESS"] "build.log"
             "no such file or directory").
  - reflexivity.
  - repeat constructor; cbn; eexists; reflexivity.
  - reflexivity.
  - reflexivity.
Defined.

Lemma file_replaces_stdin_witness :
  let file := mkStream ["BUILD IN PROGRESS"; "BUILD FAILED"] None in
  Extended.main (R := Literal.engine)
    [Extended.failure "FAILED"] ["build.log"]
    (mkStream ["BUILD SUCCESS"] None) (fun _ => inl file) World0
  = Extended.main (R := Literal.engine)
      [Extended.failure "FAILED"] [] file
      (fun _ => inr "no such file or directory") World0.
Proof.
  cbv zeta. apply file_replaces_stdin. reflexivity.
Defined.

Lemma reads_no_further_witness :
  Extended.run (R := Literal.engine) false ["SUCCESS"] ["FAILED"]
    (mkStream (["BUILD IN PROGRESS"] ++ "BUILD FAILED" :: ["BUILD SUCCESS"])
              (Some "read error")) World0
  = Extended.run (R := Literal.engine) false ["SUCCESS"] ["FAILED"]
      (mkStream (["BUILD IN PROGRESS"] ++ "BUILD FAILED" :: []) None) World0
  /\ Minimal.run (R := Literal.engine) ["SUCCESS"] ["FAILED"]
       (mkStream (["BUILD IN PROGRESS"] ++ "BUILD FAILED" :: ["BUILD SUCCESS"])
                 (Some "read error")) World0
     = Minimal.run (R := Literal.engine) ["SUCCESS"] ["FAILED"]
         (mkStream (["BUILD IN PROGRESS"] ++ "BUILD FAILED" :: []) None) World0.
Proof.
  apply (reads_no_further (R := Literal.engine) ["SUCCESS"] ["FAILED"] false
           ["BUILD IN PROGRESS"] ["BUILD SUCCESS"] [] "BUILD FAILED"
           (Some "read error") None 1 World0).
  - repeat constructor.
  - reflexivity.
Defined.

(** ** From main to the scanner loop *)

Section MainIsRun.
Context {R : Regexp}.

(** X21. In the minimal variant, on a command line whose patterns all
    compile, [main] is the scanner loop over the compiled values of the
    [-success] and [-failure] flags in the order of the command line, on
    every input. *)
Theorem minimal_main_is_run (args : list Minimal.flagArg) :
  Forall compiles args ->
  exists sp fp,
    compiled_from (success_values args) sp
    /\ compiled_from (failure_values args) fp
    /\ forall stdin,
        Minimal.main args stdin World0 = Minimal.run sp fp stdin World0.
Proof.
  intros Hall.
  destruct (minimal_parse_ok args Hall [] [] World0) as [sp [fp [Hp _]]].
  cbn [app] in Hp.
  destruct (minimal_parse_returns args _ _ _ _ _ Hp)
    as [_ [s [f [Heq [Hs Hf]]]]].
  cbn [app] in Heq. injection Heq as -> ->.
  exists s, f. repeat split; try assumption.
  intros stdin. unfold Minimal.main. rewrite bind_eq, Hp. reflexivity.
Qed.

(** X22. In the extended variant, on a command line whose patterns all
    compile, without [-help] and without argument, [main] is the
    scanner loop on the standard input over the compiled values of the
    flags in the order of the command line, with the value of the last
    [-quiet]. *)
Theorem extended_main_is_run (flags : list Extended.flagArg) :
  Forall extended_compiles flags ->
  last_help flags false = false ->
  exists sp fp,
    compiled_from (extended_success_values flags) sp
    /\ compiled_from (extended_failure_values flags) fp
    /\ forall stdin os_Open,
        Extended.main flags [] stdin os_Open World0
        = Extended.run (last_quiet flags false) sp fp stdin World0.
Proof.
  intros Hall Hhelp.
  destruct (extended_parse_ok flags Hall
              (Extended.mkFlags [] [] false false) World0)
    as [sp [fp [Hp [Hs Hf]]]].
  cbn [app Extended.successPatterns Extended.failurePatterns
       Extended.quietFlag Extended.showHelp] in Hp.
  exists sp, fp. repeat split; try assumption.
  intros stdin os_Open. unfold Extended.main. rewrite bind_eq, Hp.
  cbn [Extended.showHelp Extended.successPatterns Extended.failurePatterns
       Extended.quietFlag].
  rewrite Hhelp. reflexivity.
Qed.

Lemma matches_any_same (ps ps' : list Rx) (s : string) :
  (forall p, In p ps <-> In p ps') -> matches_any ps s = matches_any ps' s.
Proof.
  intros H. unfold matches_any.
  destruct (existsb (fun p => MatchString p s) ps') eqn:E.
  - apply existsb_exists in E. destruct E as [p [Hin Hp]].
    apply existsb_exists. exists p. split; [now apply H|assumption].
  - destruct (existsb (fun p => MatchString p s) ps) eqn:E'; [|reflexivity].
    apply existsb_exists in E'. destruct E' as [p [Hin Hp]].
    assert (existsb (fun p => MatchString p s) ps' = true) as E''.
    { apply existsb_exists. exists p. split; [now apply H|assumption]. }
    congruence.
Qed.

(** X23. The order of the patterns inside a list, and their repetition,
    change nothing but the calls of [MatchString]: two runs whose success
    lists hold the same patterns and whose failure lists hold the same
    patterns end with the same status after the same lines, with the
    same output and error output, in both variants. *)
Theorem pattern_order_irrelevant (sp sp' fp fp' : list Rx) (quiet : bool)
        (input : Stream) (w : World Rx) :
  (forall p, In p sp <-> In p sp') ->
  (forall p, In p fp <-> In p fp') ->
  let same (o o' : Result unit * World Rx) :=
      fst o = fst o' /\ scanned (snd o) = scanned (snd o')
      /\ stdout (snd o) = stdout (snd o') /\ stderr (snd o) = stderr (snd o') in
  same (Extended.run quiet sp fp input w) (Extended.run quiet sp' fp' input w)
  /\ same (Minimal.run sp fp input w) (Minimal.run sp' fp' input w).
Proof.
  intros Hs Hf. cbv zeta.
  assert (Hd : forall s, decision sp fp s = decision sp' fp' s).
  { intros s. unfold decision.
    now rewrite (matches_any_same sp sp' s Hs), (matches_any_same fp fp' s Hf). }
  assert (Hc : forall l, consumed sp fp l = consumed sp' fp' l).
  { induction l as [|x l IH]; cbn [consumed]; [reflexivity|].
    now rewrite Hd, IH. }
  rewrite !extended_run_eq, !minimal_run_eq. cbv zeta. rewrite Hc.
  destruct (consumed sp' fp' (lines input)) as [read d]. cbn [fst snd].
  destruct d as [code|]; [|destruct (err input)];
    cbn [fst snd after with_stderr stdout stderr evaluated scanned];
    repeat split; reflexivity.
Qed.

End MainIsRun.

Lemma minimal_main_is_run_witness :
  exists sp fp,
    compiled_from (R := Literal.engine) ["DONE"; "SUCCESS"] sp
    /\ compiled_from (R := Literal.engine) ["FAILED"] fp
    /\ forall stdin,
        Minimal.main (R := Literal.engine)
          [Minimal.success "DONE"; Minimal.failure "FAILED";
           Minimal.success "SUCCESS"] stdin World0
        = Minimal.run sp fp stdin World0.
Proof.
  apply (minimal_main_is_run (R := Literal.engine)
           [Minimal.success "DONE"; Minimal.failure "FAILED";
            Minimal.success "SUCCESS"]).
  repeat constructor; eexists; reflexivity.
Defined.

Lemma extended_main_is_run_witness :
  exists sp fp,
    compiled_from (R := Literal.engine) ["SUCCESS"] sp
    /\ compiled_from (R := Literal.engine) ["FAILED"] fp
    /\ forall stdin os_Open,
        Extended.main (R := Literal.engine)
          [Extended.success "SUCCESS"; Extended.help true;
           Extended.quiet true; Extended.failure "FAILED";
           Extended.help false] [] stdin os_Open World0
        = Extended.run true sp fp stdin World0.
Proof.
  apply (extended_main_is_run (R := Literal.engine)
           [Extended.success "SUCCESS"; Extended.help true;
            Extended.quiet true; Extended.failure "FAILED";
            Extended.help false]).
  - exact literal_flags_compile.
  - reflexivity.
Defined.

Lemma pattern_order_irrelevant_witness :
  let input := mkStream ["BUILD IN PROGRESS"; "BUILD DONE"; "BUILD FAILED"] None in
  let o := Minimal.run (R := Literal.engine) ["DONE"; "SUCCESS"] ["FAILED"]
                       input World0 in
  let o' := Minimal.run (R := Literal.engine) ["SUCCESS"; "DONE"; "SUCCESS"]
                        ["FAILED"; "FAILED"] input World0 in
  fst o = fst o' /\ scanned (snd o) = scanned (snd o')
  /\ stdout (snd o) = stdout (snd o') /\ stderr (snd o) = stderr (snd o').
Proof.
  cbv zeta.
  apply (pattern_order_irrelevant (R := Literal.engine)
           ["DONE"; "SUCCESS"] ["SUCCESS"; "DONE"; "SUCCESS"]
           ["FAILED"] ["FAILED"; "FAILED"] false).
  - intros p. cbn. tauto.
  - intros p. cbn. tauto.
Defined.
